(** * The ZeroMQ dealer publisher proxy of oslo.messaging

    A shallow embedding of
    [oslo_messaging/_drivers/zmq_driver/client/publishers/dealer/zmq_dealer_publisher_proxy.py]:
    the routing-table cache [RoutingTable], the two senders
    [DealerPublisherProxy] and [CallSenderProxy], and the reply reader
    [ReplyWaiterProxy.receive_method].

    Python objects with mutable fields become records that are threaded
    through a state monad; a raised exception is an outcome of the call and
    leaves the mutations made so far in place, as in Python. *)

From stdpp Require Import gmap strings list pretty.

Open Scope Z_scope.

(** ** Outcomes *)

(** The exceptions that matter here.  The first five are what the Python
    code can raise by itself ([dict[k]], [list.pop], [int()], [assert],
    [pickle.loads]); [UnsupportedSendPattern] is raised by [send_request].
    The last two are the error names of the specification; no statement of
    the source raises them. *)
Inductive exn : Type :=
| KeyError (key : string)
| IndexError
| ValueError
| AssertionError (msg : string)
| UnpicklingError
| UnsupportedSendPattern (pattern_name : Z)
| NoEndpointsAvailable
| ProtocolViolation.

(** A call returns a value, raises, or does not return because a blocking
    [recv] finds nothing to read. *)
Inductive outcome (A : Type) : Type :=
| Ok (a : A)
| Raise (e : exn)
| Blocked.
Arguments Ok {A} a.
Arguments Raise {A} e.
Arguments Blocked {A}.

(** ** The state-and-exception monad *)

Definition M (St A : Type) : Type := St → outcome A * St.

Definition ret {St A} (a : A) : M St A := λ s, (Ok a, s).

Definition bind {St A B} (m : M St A) (k : A → M St B) : M St B :=
  λ s, match m s with
       | (Ok a, s') => k a s'
       | (Raise e, s') => (Raise e, s')
       | (Blocked, s') => (Blocked, s')
       end.

Definition raise {St A} (e : exn) : M St A := λ s, (Raise e, s).
Definition get {St} : M St St := λ s, (Ok s, s).
Definition put {St} (s : St) : M St unit := λ _, (Ok tt, s).

Global Instance M_ret {St} : MRet (M St) := λ A, ret.
Global Instance M_bind {St} : MBind (M St) := λ A B k m, bind m k.

(** [for x in xs: body x] *)
Fixpoint for_each {St A} (xs : list A) (body : A → M St unit) : M St unit :=
  match xs with
  | [] => ret tt
  | x :: xs' => body x ;; for_each xs' body
  end.

(** Consecutive calls [f e1], [f e2], ... on the same object, collecting
    the returned values; the first call that does not return ends the run. *)
Fixpoint consecutive {St E A} (f : E → M St A) (es : list E) : M St (list A) :=
  match es with
  | [] => ret []
  | e :: es' =>
      a ← f e;
      rest ← consecutive f es';
      ret (a :: rest)
  end.

(** ** Data *)

(** A host is the identity of a remote DEALER socket, a string; frames on
    the wire are byte strings.  Time stamps are readings of [time.time()];
    they are floats in Python and integer clock ticks here, which keeps the
    order and the differences the module compares. *)
Abbreviation Host := string (only parsing).
Abbreviation bytes := string (only parsing).

(** [self.conf]: the two options the module reads. *)
Record Conf : Type := {
  zmq_target_expire : Z;
  use_pub_sub : bool
}.

(** [RoutingTable]: [routing_table] maps [str(target)] to the pair
    [(hosts, fetch time)]; [routable_hosts] maps it to the list that
    [get_routable_host] pops from. *)
Record RoutingTable : Type := {
  routing_table : gmap string (list Host * Z);
  routable_hosts : gmap string (list Host)
}.

(** [RoutingTable.__init__] *)
Definition RoutingTable_init : RoutingTable :=
  {| routing_table := ∅; routable_hosts := ∅ |}.

Section Proxy.

(** Targets are objects of [oslo_messaging.Target]; the module only takes
    their [str()] and hands them to the matchmaker. *)
Context {Target : Type}.
Variable str : Target → string.

(** What one call observes of the outside: the matchmaker's answer to
    [get_hosts(target, "DEALER")], the reading of [time.time()] in
    [_is_tm_expired] and the reading of [time.time()] in [_fetch_hosts]. *)
Record Env : Type := {
  get_hosts : Target → list Host;
  time_check : Z;
  time_fetch : Z
}.

Variable conf : Conf.

(** [0 <= self.conf.zmq_target_expire <= time.time() - tm] *)
Definition _is_tm_expired (now tm : Z) : bool :=
  (0 <=? zmq_target_expire conf) && (zmq_target_expire conf <=? now - tm).

(** [self.routing_table[k] = r] and [self.routable_hosts[k] = hs] *)
Definition set_routing_table (k : string) (r : list Host * Z) (rt : RoutingTable)
  : RoutingTable :=
  {| routing_table := <[k := r]> (routing_table rt);
     routable_hosts := routable_hosts rt |}.

Definition set_routable_hosts (k : string) (hs : list Host) (rt : RoutingTable)
  : RoutingTable :=
  {| routing_table := routing_table rt;
     routable_hosts := <[k := hs]> (routable_hosts rt) |}.

(** The matchmaker is asked first, the clock is read second. *)
Definition _fetch_hosts (target : Target) (env : Env) : M RoutingTable unit :=
  rt ← get;
  put (set_routing_table (str target) (get_hosts env target, time_fetch env) rt).

(** [self.routing_table[str(target)]] raises [KeyError] without a record.
    The queue is [list(hosts)], a copy: popping from it leaves the list of
    the record alone. *)
Definition _renew_routable_hosts (target : Target) : M RoutingTable unit :=
  rt ← get;
  match routing_table rt !! str target with
  | None => raise (KeyError (str target))
  | Some (hosts, _) => put (set_routable_hosts (str target) hosts rt)
  end.

(** [self.routing_table.get(str(target))] is [None] without a record; the
    clock is read only when there is one. *)
Definition _update_routing_table (target : Target) (env : Env)
  : M RoutingTable unit :=
  rt ← get;
  match routing_table rt !! str target with
  | None => _fetch_hosts target env ;; _renew_routable_hosts target
  | Some routing_record =>
      if _is_tm_expired (time_check env) routing_record.2
      then _fetch_hosts target env
      else ret tt
  end.

(** [list(self.routable_hosts.get(str(target)) or [])] *)
Definition get_all_hosts (target : Target) (env : Env)
  : M RoutingTable (list Host) :=
  _update_routing_table target env ;;
  rt ← get;
  ret (default [] (routable_hosts rt !! str target)).

(** [hosts_for_target.pop(0)] removes the head of the list held by the
    dictionary; on an empty list it raises [IndexError]. *)
Definition get_routable_host (target : Target) (env : Env)
  : M RoutingTable Host :=
  _update_routing_table target env ;;
  rt ← get;
  match routable_hosts rt !! str target with
  | None => raise (KeyError (str target))
  | Some hosts_for_target =>
      match hosts_for_target with
      | [] => raise IndexError
      | host :: rest =>
          put (set_routable_hosts (str target) rest rt) ;;
          (if bool_decide (rest = []) then _renew_routable_hosts target
           else ret tt) ;;
          ret host
      end
  end.

(** What the pop and the renewal of [get_routable_host] do to the table
    left by [_update_routing_table]. *)
Definition pop_and_renew (k : string) (rt1 : RoutingTable)
  : outcome string * RoutingTable :=
  match routable_hosts rt1 !! k with
  | None => (Raise (KeyError k), rt1)
  | Some [] => (Raise IndexError, rt1)
  | Some (host :: rest) =>
      if bool_decide (rest = []) then
        match routing_table rt1 !! k with
        | None => (Raise (KeyError k), set_routable_hosts k rest rt1)
        | Some (hosts, _) => (Ok host, set_routable_hosts k hosts rt1)
        end
      else (Ok host, set_routable_hosts k rest rt1)
  end.

(** ** The senders *)

(** Serialised objects ([request.context], [request.message]) are opaque;
    [dumps] is [pickle.dumps], which [send_pyobj] applies before sending. *)
Context {PyObj : Type}.
Variable dumps : PyObj → bytes.

(** Constants and helpers of [zmq_names] and [zmq_address]. *)
Variable CALL_TYPE : Z.
Variable DIRECT_TYPES : list Z.
Variable target_to_subscribe_filter : Target → string.

Record Request : Type := {
  msg_type : Z;
  target : Target;
  message_id : string;
  context : PyObj;
  message : PyObj
}.

(** The second argument of [socket.send]: [zmq.SNDMORE], or the default. *)
Inductive send_flag : Type := NOFLAGS | SNDMORE.

(** A sender ([DealerPublisherProxy], [CallSenderProxy]) owns a routing
    table and a socket; of the socket, the frames sent so far are kept,
    oldest first. *)
Record Sender : Type := {
  sender_routing_table : RoutingTable;
  socket : list (bytes * send_flag)
}.

(** [self.routing_table.<method>(...)] *)
Definition on_routing_table {A} (m : M RoutingTable A) : M Sender A :=
  λ s, let '(r, rt) := m (sender_routing_table s) in
       (r, {| sender_routing_table := rt; socket := socket s |}).

(** [self.socket.send(data, flags)] *)
Definition socket_send (data : bytes) (flags : send_flag) : M Sender unit :=
  λ s, (Ok tt, {| sender_routing_table := sender_routing_table s;
                  socket := socket s ++ [(data, flags)] |}).

(** [self.socket.send_pyobj(obj, flags)] *)
Definition socket_send_pyobj (obj : PyObj) (flags : send_flag) : M Sender unit :=
  socket_send (dumps obj) flags.

(** [DealerPublisherProxy._do_send_request]; [six.b(str(n))] of an integer
    is its decimal rendering, and [six.b] is the identity on byte strings. *)
Definition _do_send_request (request : Request) (routing_key : string)
  : M Sender unit :=
  socket_send "" SNDMORE ;;
  socket_send (pretty (msg_type request)) SNDMORE ;;
  socket_send routing_key SNDMORE ;;
  socket_send (message_id request) SNDMORE ;;
  socket_send_pyobj (context request) SNDMORE ;;
  socket_send_pyobj (message request) NOFLAGS.

(** The request envelope as the specification lists it: six frames, all
    but the last flagged as followed by more. *)
Definition envelope (request : Request) (routing_key : string)
  : list (bytes * send_flag) :=
  [ ("", SNDMORE);
    (pretty (msg_type request), SNDMORE);
    (routing_key, SNDMORE);
    (message_id request, SNDMORE);
    (dumps (context request), SNDMORE);
    (dumps (message request), NOFLAGS) ].

(** [DealerPublisherProxy.send_request] *)
Definition send_request (request : Request) (env : Env) : M Sender unit :=
  if bool_decide (msg_type request = CALL_TYPE)
  then raise (UnsupportedSendPattern (msg_type request))
  else if use_pub_sub conf then
    routing_key ←
      (if bool_decide (msg_type request ∈ DIRECT_TYPES)
       then on_routing_table (get_routable_host (target request) env)
       else ret (target_to_subscribe_filter (target request)));
    _do_send_request request routing_key
  else
    routing_keys ← on_routing_table (get_all_hosts (target request) env);
    for_each routing_keys (λ routing_key, _do_send_request request routing_key).

(** [CallSenderProxy._do_send_request]; its [socket] argument is
    [self.socket] (see [_connect_socket]). *)
Definition CallSenderProxy_do_send_request (request : Request) (env : Env)
  : M Sender unit :=
  routing_key ← on_routing_table (get_routable_host (target request) env);
  socket_send "" SNDMORE ;;
  socket_send (pretty (msg_type request)) SNDMORE ;;
  socket_send routing_key SNDMORE ;;
  socket_send (message_id request) SNDMORE ;;
  socket_send_pyobj (context request) SNDMORE ;;
  socket_send_pyobj (message request) NOFLAGS.

(** ** The reply reader *)

(** [int] is Python's [int()] on a byte string and [loads] is
    [pickle.loads]; [None] stands for their [ValueError] and unpickling
    error.  [REPLY_TYPE] is the constant of [zmq_names]. *)
Variable int : bytes → option Z.
Variable loads : bytes → option PyObj.
Variable REPLY_TYPE : Z.

(** The receiving socket is the list of frames waiting to be read. *)
Definition recv : M (list bytes) bytes :=
  λ s, match s with
       | [] => (Blocked, s)
       | frame :: s' => (Ok frame, s')
       end.

Definition recv_pyobj : M (list bytes) PyObj :=
  frame ← recv;
  match loads frame with
  | Some obj => ret obj
  | None => raise UnpicklingError
  end.

(** [assert cond, msg] *)
Definition assert {St} (cond : bool) (msg : string) : M St unit :=
  if cond then ret tt else raise (AssertionError msg).

(** [ReplyWaiterProxy.receive_method].  [recv] returns a byte string, so
    [reply_id is not None] holds whenever it is evaluated. *)
Definition receive_method : M (list bytes) PyObj :=
  empty ← recv;
  assert (bool_decide (empty = "")) "Empty expected!" ;;
  reply_id ← recv;
  assert true "Reply ID expected!" ;;
  message_type ← (frame ← recv;
                  match int frame with
                  | Some n => ret n
                  | None => raise ValueError
                  end);
  assert (bool_decide (message_type = REPLY_TYPE)) "Reply is expected!" ;;
  message_id ← recv;
  reply ← recv_pyobj;
  ret reply.

End Proxy.

(** ** Round robin, as a list *)

(** The hosts a repeating cycle over [hosts] gives in [n] steps when it
    starts at position [i]: step [k] gives [hosts[(i + k) mod N]]. *)
Definition round_robin (hosts : list string) (i n : nat) : list string :=
  omap (λ k, hosts !! Nat.modulo (i + k) (length hosts)) (seq 0 n).

Arguments Env Target : clear implicits.
Arguments Request Target PyObj : clear implicits.

(** ** A concrete setting for the examples

    Targets are their own [str()], serialised objects are byte strings that
    pickle to themselves, and [int()] reads a plain run of decimal digits.
    The message-type numbers stand for those of [zmq_names]. *)

Fixpoint decimal_value (s : string) (acc : Z) : option Z :=
  match s with
  | EmptyString => Some acc
  | String c s' =>
      let d := Z.of_nat (Ascii.nat_of_ascii c) - 48 in
      if bool_decide (0 ≤ d ≤ 9) then decimal_value s' (10 * acc + d)
      else None
  end.

Definition decimal_int (s : string) : option Z :=
  match s with
  | EmptyString => None
  | _ => decimal_value s 0
  end.

Definition CALL : Z := 1.
Definition CAST : Z := 2.
Definition REPLY : Z := 5.
Definition DIRECT : list Z := [CALL; CAST; REPLY].

Definition conf_of (expire : Z) (pub_sub : bool) : Conf :=
  {| zmq_target_expire := expire; use_pub_sub := pub_sub |}.

(** The outside at clock reading [now], with the matchmaker answering
    [hosts] for every target. *)
Definition world (hosts : list string) (now : Z) : Env string :=
  {| get_hosts := λ _, hosts; time_check := now; time_fetch := now |}.

Definition cast_request : Request string string :=
  {| msg_type := CAST; target := "T"; message_id := "m1";
     context := "ctx"; message := "msg" |}.

Definition call_request : Request string string :=
  {| msg_type := CALL; target := "T"; message_id := "m2";
     context := "ctx"; message := "msg" |}.

(** A table whose record and queue for ["T"] both hold [A, B, C]. *)
Definition table_abc : RoutingTable :=
  {| routing_table := {[ "T" := (["A"; "B"; "C"], 0) ]};
     routable_hosts := {[ "T" := ["A"; "B"; "C"] ]} |}.

(** The same record after one pop: the queue holds [B, C]. *)
Definition table_bc : RoutingTable :=
  {| routing_table := {[ "T" := (["A"; "B"; "C"], 0) ]};
     routable_hosts := {[ "T" := ["B"; "C"] ]} |}.

(** A sender that has sent nothing and looked up nothing. *)
Definition fresh_sender : Sender :=
  {| sender_routing_table := RoutingTable_init; socket := [] |}.

(** ** Tables that calls lead to *)

Section Reachable.

Context {Target : Type} (str : Target → string) (conf : Conf).

(** The tables that calls of [get_all_hosts] and [get_routable_host] lead
    to from [rt0], for any targets and whatever the clock and the matchmaker
    say; a call that raises counts with the table it leaves. *)
Inductive reachable_from (rt0 : RoutingTable) : RoutingTable → Prop :=
| reachable_start : reachable_from rt0 rt0
| reachable_get_all_hosts rt target env :
    reachable_from rt0 rt →
    reachable_from rt0 (get_all_hosts str conf target env rt).2
| reachable_get_routable_host rt target env :
    reachable_from rt0 rt →
    reachable_from rt0 (get_routable_host str conf target env rt).2.

End Reachable.

(** The two dictionaries have the same keys. *)
Definition consistent (rt : RoutingTable) : Prop :=
  dom (routing_table rt) =@{gset string} dom (routable_hosts rt).

(** A key with a record and an empty queue. *)
Definition unroutable (k : string) (rt : RoutingTable) : Prop :=
  is_Some (routing_table rt !! k) ∧ routable_hosts rt !! k = Some [].

(** What [pop(0)] on [queue] gives the caller. *)
Definition pop_outcome (queue : list string) : outcome string :=
  match queue with
  | [] => Raise IndexError
  | host :: _ => Ok host
  end.

(** ** The connection updater *)

(** Of the socket of [PublisherConnectionUpdater], the hosts passed to
    [connect_to_host] so far are kept, oldest first. *)
Definition connect_to_host (host : string) : M (list string) unit :=
  λ s, (Ok tt, s ++ [host]).

(** [PublisherConnectionUpdater._update_connection]; [publishers] is the
    answer of [self.matchmaker.get_publishers()], a list of pairs
    [(pub_address, router_address)]. *)
Definition _update_connection (publishers : list (string * string))
  : M (list string) unit :=
  for_each publishers
    (λ '(pub_address, router_address), connect_to_host router_address).

(** ** More of the concrete setting *)

(** A table whose record for ["T"] holds [A] while the queue is empty. *)
Definition table_empty_queue : RoutingTable :=
  {| routing_table := {[ "T" := (["A"], 0) ]};
     routable_hosts := {[ "T" := [] ]} |}.

(** A table whose record for ["T"] holds [A, B] while the queue is down
    to its last host. *)
Definition table_last : RoutingTable :=
  {| routing_table := {[ "T" := (["A"; "B"], 0) ]};
     routable_hosts := {[ "T" := ["B"] ]} |}.

(** A sender that has sent nothing and whose table is [table_abc]. *)
Definition sender_abc : Sender :=
  {| sender_routing_table := table_abc; socket := [] |}.

(** Targets with a topic and a server, whose [str()] shows the topic
    only. *)
Definition topic_of (target : string * string) : string := target.1.

(** A matchmaker that answers by server: [X] for server ["s1"], [Y]
    otherwise. *)
Definition by_server (now : Z) : Env (string * string) :=
  {| get_hosts := λ target, if bool_decide (target.2 = "s1") then ["X"]
                            else ["Y"];
     time_check := now; time_fetch := now |}.

(** A sender that has sent nothing and whose table is
    [table_empty_queue]. *)
Definition sender_empty_queue : Sender :=
  {| sender_routing_table := table_empty_queue; socket := [] |}.

(** * Properties *)

(** Unfolding of the monad, for running a definition symbolically. *)
Ltac run :=
  repeat (progress (unfold mbind, mret, M_bind, M_ret, bind, ret, raise, get,
                    put; simpl)).

Section Consecutive.

Context {St E A : Type} (f : E → M St A).

Lemma consecutive_cons e es s a s1 rest s2 :
  f e s = (Ok a, s1) →
  consecutive f es s1 = (Ok rest, s2) →
  consecutive f (e :: es) s = (Ok (a :: rest), s2).
Proof. intros Hhd Htl. simpl. run. by rewrite Hhd, Htl. Qed.

Lemma consecutive_app es1 : ∀ es2 s out1 s1 out2 s2,
  consecutive f es1 s = (Ok out1, s1) →
  consecutive f es2 s1 = (Ok out2, s2) →
  consecutive f (es1 ++ es2) s = (Ok (out1 ++ out2), s2).
Proof.
  induction es1 as [|e es1 IH]; intros es2 s out1 s1 out2 s2 H1 H2.
  - simpl in H1. injection H1 as <- <-. done.
  - destruct (f e s) as [[a| |] s'] eqn:Hhd;
      [|simpl in H1; revert H1; run; by rewrite Hhd..].
    destruct (consecutive f es1 s') as [[rest| |] s''] eqn:Htl;
      [|simpl in H1; revert H1; run; by rewrite Hhd, Htl..].
    rewrite (consecutive_cons _ _ _ _ _ _ _ Hhd Htl) in H1.
    injection H1 as <- <-.
    change ((e :: es1) ++ es2) with (e :: (es1 ++ es2)).
    eapply consecutive_cons; [done|]. by eapply IH.
Qed.

(** A property of the state that every call keeps is kept by a run. *)
Lemma consecutive_preserves (P : St → Prop) :
  (∀ e s, P s → P (f e s).2) →
  ∀ es s, P s → P (consecutive f es s).2.
Proof.
  intros Hstep es. induction es as [|e es IH]; intros s Hs; [done|].
  simpl. run. specialize (Hstep e s Hs).
  destruct (f e s) as [[a| |] s']; simpl in *; try done.
  specialize (IH s' Hstep).
  by destruct (consecutive f es s') as [[rest| |] s''].
Qed.

End Consecutive.

Section RoutingTableFacts.

Context {Target : Type} (str : Target → string) (conf : Conf).
Implicit Types (rt : RoutingTable) (env : Env Target) (target : Target).
Implicit Types (hosts : list string) (tm : Z) (i : nat).

(** The three ways through [_update_routing_table]. *)
Lemma update_missing target env rt :
  routing_table rt !! str target = None →
  _update_routing_table str conf target env rt =
    (Ok tt, set_routable_hosts (str target) (get_hosts env target)
              (set_routing_table (str target)
                 (get_hosts env target, time_fetch env) rt)).
Proof.
  intros Hnone. unfold _update_routing_table, _fetch_hosts,
    _renew_routable_hosts. run. rewrite Hnone. run.
  by rewrite lookup_insert_eq.
Qed.

Lemma update_expired target env rt hosts tm :
  routing_table rt !! str target = Some (hosts, tm) →
  _is_tm_expired conf (time_check env) tm = true →
  _update_routing_table str conf target env rt =
    (Ok tt, set_routing_table (str target)
              (get_hosts env target, time_fetch env) rt).
Proof.
  intros Hrec Hexp. unfold _update_routing_table, _fetch_hosts. run.
  rewrite Hrec. simpl. by rewrite Hexp.
Qed.

Lemma update_fresh target env rt hosts tm :
  routing_table rt !! str target = Some (hosts, tm) →
  _is_tm_expired conf (time_check env) tm = false →
  _update_routing_table str conf target env rt = (Ok tt, rt).
Proof.
  intros Hrec Hexp. unfold _update_routing_table. run.
  rewrite Hrec. simpl. by rewrite Hexp.
Qed.

Lemma is_tm_expired_spec now tm :
  _is_tm_expired conf now tm = true ↔
  0 ≤ zmq_target_expire conf ∧ zmq_target_expire conf ≤ now - tm.
Proof. unfold _is_tm_expired. rewrite andb_true_iff. lia. Qed.

(** [_update_routing_table] always returns. *)
Lemma update_returns target env rt :
  ∃ rt1, _update_routing_table str conf target env rt = (Ok tt, rt1).
Proof.
  destruct (routing_table rt !! str target) as [[hosts tm]|] eqn:Hrec.
  - destruct (_is_tm_expired conf (time_check env) tm) eqn:Hexp.
    + eexists. by eapply update_expired.
    + eexists. by eapply update_fresh.
  - eexists. by apply update_missing.
Qed.

Lemma set_routable_hosts_twice k hs hs' rt :
  set_routable_hosts k hs (set_routable_hosts k hs' rt) =
  set_routable_hosts k hs rt.
Proof. unfold set_routable_hosts. simpl. by rewrite insert_insert_eq. Qed.

Lemma get_routable_host_eq target env rt rt1 :
  _update_routing_table str conf target env rt = (Ok tt, rt1) →
  get_routable_host str conf target env rt = pop_and_renew (str target) rt1.
Proof.
  intros Hupd. unfold get_routable_host, pop_and_renew. run. rewrite Hupd.
  destruct (routable_hosts rt1 !! str target) as [[|host rest]|]; try done.
  run. case_bool_decide; run; [|done].
  unfold _renew_routable_hosts. run.
  destruct (routing_table rt1 !! str target) as [[hosts tm]|]; [|done].
  run. by rewrite set_routable_hosts_twice.
Qed.

Lemma get_all_hosts_eq target env rt rt1 :
  _update_routing_table str conf target env rt = (Ok tt, rt1) →
  get_all_hosts str conf target env rt =
    (Ok (default [] (routable_hosts rt1 !! str target)), rt1).
Proof. intros Hupd. unfold get_all_hosts. run. by rewrite Hupd. Qed.

(** *** Round robin *)

Lemma round_robin_shift hosts i j n :
  omap (λ k, hosts !! Nat.modulo (i + k) (length hosts)) (seq (S j) n) =
  omap (λ k, hosts !! Nat.modulo (Nat.modulo (S i) (length hosts) + k)
                        (length hosts)) (seq j n).
Proof.
  revert j. induction n as [|n IH]; intros j; [done|].
  simpl. rewrite IH. rewrite Nat.Div0.add_mod_idemp_l.
  by replace (i + S j)%nat with (S i + j)%nat by lia.
Qed.

Lemma round_robin_S hosts i n h :
  hosts !! i = Some h →
  round_robin hosts i (S n) =
  h :: round_robin hosts (Nat.modulo (S i) (length hosts)) n.
Proof.
  intros Hi. pose proof (lookup_lt_Some _ _ _ Hi) as Hlt.
  unfold round_robin. simpl.
  rewrite Nat.add_0_r, Nat.mod_small, Hi by done.
  by rewrite round_robin_shift.
Qed.

(** One call when the record is not refreshed and the queue is the rest
    [drop i hosts] of the record's list: it returns [hosts[i]] and leaves the
    rest from the next position of the cycle. *)
Lemma round_robin_step target env rt hosts tm i h :
  routing_table rt !! str target = Some (hosts, tm) →
  routable_hosts rt !! str target = Some (drop i hosts) →
  hosts !! i = Some h →
  _is_tm_expired conf (time_check env) tm = false →
  get_routable_host str conf target env rt =
    (Ok h, set_routable_hosts (str target)
             (drop (Nat.modulo (S i) (length hosts)) hosts) rt).
Proof.
  intros Hrec Hq Hi Hfresh. pose proof (lookup_lt_Some _ _ _ Hi) as Hlt.
  rewrite (get_routable_host_eq _ _ _ rt) by by eapply update_fresh.
  unfold pop_and_renew. rewrite Hq, (drop_S _ _ _ Hi), Hrec.
  case_bool_decide as Hrest.
  - apply (f_equal length) in Hrest. rewrite length_drop in Hrest.
    simpl in Hrest. replace (S i) with (length hosts) by lia.
    by rewrite Nat.Div0.mod_same.
  - rewrite Nat.mod_small; [done|].
    destruct (decide (S i = length hosts)) as [Heq|]; [|lia].
    destruct Hrest. apply drop_ge. lia.
Qed.

Lemma round_robin_run target rt hosts tm envs : ∀ i,
  routing_table rt !! str target = Some (hosts, tm) →
  routable_hosts rt !! str target = Some (drop i hosts) →
  (i < length hosts)%nat →
  Forall (λ env, _is_tm_expired conf (time_check env) tm = false) envs →
  ∃ rt',
    consecutive (get_routable_host str conf target) envs rt =
      (Ok (round_robin hosts i (length envs)), rt') ∧
    routing_table rt' = routing_table rt ∧
    routable_hosts rt' !! str target =
      Some (drop (Nat.modulo (i + length envs) (length hosts)) hosts).
Proof.
  revert rt. induction envs as [|env envs IH]; intros rt i Hrec Hq Hlt Hfresh.
  - exists rt. simpl. rewrite Nat.add_0_r, Nat.mod_small by done. done.
  - inversion_clear Hfresh as [|? ? Henv Henvs].
    destruct (lookup_lt_is_Some_2 hosts i Hlt) as [h Hi].
    pose proof (round_robin_step target env rt hosts tm i h Hrec Hq Hi Henv)
      as Hstep.
    set (rt1 := set_routable_hosts (str target)
                  (drop (Nat.modulo (S i) (length hosts)) hosts) rt) in *.
    destruct (IH rt1 (Nat.modulo (S i) (length hosts)))
      as (rt' & Hrun & Hrec' & Hq'); try done.
    { subst rt1. simpl. by rewrite lookup_insert_eq. }
    { apply Nat.mod_upper_bound. lia. }
    exists rt'. split_and!.
    + simpl. run. rewrite Hstep, Hrun.
      by rewrite (round_robin_S _ _ _ h Hi).
    + by rewrite Hrec'.
    + rewrite Hq', Nat.Div0.add_mod_idemp_l.
      by replace (i + length (env :: envs))%nat with (S i + length envs)%nat
        by (simpl; lia).
Qed.

Lemma round_robin_lookup hosts n : ∀ i,
  (i < length hosts)%nat →
  length (round_robin hosts i n) = n ∧
  ∀ k, (k < n)%nat →
    round_robin hosts i n !! k = hosts !! Nat.modulo (i + k) (length hosts).
Proof.
  induction n as [|n IH]; intros i Hlt.
  - split; [done|]. intros k Hk. lia.
  - destruct (lookup_lt_is_Some_2 hosts i Hlt) as [h Hi].
    rewrite (round_robin_S _ _ _ h Hi).
    destruct (IH (Nat.modulo (S i) (length hosts))) as [Hlen Hnth].
    { apply Nat.mod_upper_bound. lia. }
    split; [simpl; by rewrite Hlen|].
    intros [|k] Hk; simpl.
    + by rewrite Nat.add_0_r, Nat.mod_small.
    + rewrite Hnth, Nat.Div0.add_mod_idemp_l by lia.
      by replace (S i + k)%nat with (i + S k)%nat by lia.
Qed.

(** C1 (amended).  When the routing record of a target holds the N >= 1
    hosts [hosts], is present and is not TTL-expired at any of the calls,
    and the target's queue is the not yet consumed rest [drop i hosts] of
    that list (the whole list when [i = 0]), any run of [get_routable_host]
    calls returns: call number [k] gives [hosts[(i + k) mod N]], a repeating
    cycle of length N in the order of the record. *)
Theorem round_robin_cycle target rt hosts tm i envs :
  routing_table rt !! str target = Some (hosts, tm) →
  routable_hosts rt !! str target = Some (drop i hosts) →
  (i < length hosts)%nat →
  Forall (λ env, _is_tm_expired conf (time_check env) tm = false) envs →
  (consecutive (get_routable_host str conf target) envs rt).1 =
    Ok (round_robin hosts i (length envs)) ∧
  length (round_robin hosts i (length envs)) = length envs ∧
  ∀ k, (k < length envs)%nat →
    round_robin hosts i (length envs) !! k =
    hosts !! Nat.modulo (i + k) (length hosts).
Proof.
  intros Hrec Hq Hlt Hfresh.
  destruct (round_robin_run target rt hosts tm envs i Hrec Hq Hlt Hfresh)
    as (rt' & Hrun & _).
  rewrite Hrun. split; [done|]. by apply round_robin_lookup.
Qed.

(** *** A refresh and the queue *)

Lemma update_present target env rt hosts tm :
  routing_table rt !! str target = Some (hosts, tm) →
  ∃ rt1 hosts1 tm1,
    _update_routing_table str conf target env rt = (Ok tt, rt1) ∧
    routable_hosts rt1 = routable_hosts rt ∧
    routing_table rt1 !! str target = Some (hosts1, tm1).
Proof.
  intros Hrec. destruct (_is_tm_expired conf (time_check env) tm) eqn:Hexp.
  - eexists _, _, _. split; [by eapply update_expired|].
    split; [done|]. simpl. by rewrite lookup_insert_eq.
  - eexists rt, _, _. split; [by eapply update_fresh|]. done.
Qed.

(** As many calls as the queue is long return the queue, in order, whatever
    the clock and the matchmaker say meanwhile; the queue is then the list
    of the record as it stands at the last call. *)
Lemma drain_queue target queue : ∀ rt envs,
  queue ≠ [] →
  is_Some (routing_table rt !! str target) →
  routable_hosts rt !! str target = Some queue →
  length envs = length queue →
  ∃ rt' hosts' tm',
    consecutive (get_routable_host str conf target) envs rt = (Ok queue, rt') ∧
    routing_table rt' !! str target = Some (hosts', tm') ∧
    routable_hosts rt' !! str target = Some hosts'.
Proof.
  induction queue as [|host rest IH]; intros rt envs Hne [[hosts tm] Hrec] Hq Hlen;
    [done|].
  destruct envs as [|env envs]; [done|]. simpl in Hlen.
  destruct (update_present target env rt hosts tm Hrec)
    as (rt1 & hosts1 & tm1 & Hupd & Hq1 & Hrec1).
  pose proof (get_routable_host_eq target env rt rt1 Hupd) as Hcall.
  unfold pop_and_renew in Hcall. rewrite Hq1, Hq, Hrec1 in Hcall.
  case_bool_decide as Hrest.
  - subst rest. destruct envs; [|done].
    exists (set_routable_hosts (str target) hosts1 rt1), hosts1, tm1.
    split; [by eapply consecutive_cons|].
    simpl. by rewrite lookup_insert_eq.
  - destruct (IH (set_routable_hosts (str target) rest rt1) envs)
      as (rt' & hosts' & tm' & Hrun & Hrec' & Hq');
      [done | by (simpl; rewrite Hrec1)
      | by (simpl; rewrite lookup_insert_eq) | lia |].
    exists rt', hosts', tm'. split; [by eapply consecutive_cons|done].
Qed.

(** The same when no call refreshes the record: the queue ends as the
    record's list. *)
Lemma drain_queue_fresh target queue : ∀ rt hosts tm envs,
  queue ≠ [] →
  routing_table rt !! str target = Some (hosts, tm) →
  routable_hosts rt !! str target = Some queue →
  length envs = length queue →
  Forall (λ env, _is_tm_expired conf (time_check env) tm = false) envs →
  consecutive (get_routable_host str conf target) envs rt =
    (Ok queue, set_routable_hosts (str target) hosts rt).
Proof.
  induction queue as [|host rest IH]; intros rt hosts tm envs Hne Hrec Hq Hlen
    Hfresh; [done|].
  destruct envs as [|env envs]; [done|]. simpl in Hlen.
  inversion_clear Hfresh as [|? ? Henv Henvs].
  pose proof (get_routable_host_eq target env rt rt
                (update_fresh target env rt hosts tm Hrec Henv)) as Hcall.
  unfold pop_and_renew in Hcall. rewrite Hq, Hrec in Hcall.
  case_bool_decide as Hrest.
  - subst rest. destruct envs; [|done]. by eapply consecutive_cons.
  - eapply consecutive_cons; [done|].
    rewrite (IH _ hosts tm);
      [by rewrite set_routable_hosts_twice | done | done
      | by (simpl; rewrite lookup_insert_eq) | lia | done].
Qed.

(** A call that refreshes the record, followed by calls that do not, until
    the queue that was there is used up. *)
Lemma drain_after_refresh target rt hosts tm queue env0 envs :
  routing_table rt !! str target = Some (hosts, tm) →
  routable_hosts rt !! str target = Some queue →
  _is_tm_expired conf (time_check env0) tm = true →
  S (length envs) = length queue →
  Forall (λ env, _is_tm_expired conf (time_check env) (time_fetch env0) = false)
    envs →
  consecutive (get_routable_host str conf target) (env0 :: envs) rt =
    (Ok queue,
     set_routable_hosts (str target) (get_hosts env0 target)
       (set_routing_table (str target)
          (get_hosts env0 target, time_fetch env0) rt)).
Proof.
  intros Hrec Hq Hexp Hlen Hfresh.
  set (rt1 := set_routing_table (str target)
                (get_hosts env0 target, time_fetch env0) rt).
  assert (routing_table rt1 !! str target =
          Some (get_hosts env0 target, time_fetch env0)) as Hrec1.
  { simpl. by rewrite lookup_insert_eq. }
  pose proof (get_routable_host_eq target env0 rt rt1
                (update_expired target env0 rt hosts tm Hrec Hexp)) as Hcall.
  unfold pop_and_renew in Hcall. simpl routable_hosts in Hcall.
  rewrite Hq in Hcall. destruct queue as [|host rest]; [done|].
  rewrite Hrec1 in Hcall. simpl in Hlen. case_bool_decide as Hrest.
  - subst rest. destruct envs; [|done]. by eapply consecutive_cons.
  - eapply consecutive_cons; [done|].
    rewrite (drain_queue_fresh target rest _ (get_hosts env0 target)
               (time_fetch env0));
      [by rewrite set_routable_hosts_twice | done | done
      | by (simpl; rewrite lookup_insert_eq) | lia | done].
Qed.

(** C2.  For a target with a non-empty queue, a lookup that finds the
    routing record TTL-expired replaces the record by the freshly fetched
    list and leaves the queue as it is; the following [get_routable_host]
    calls first return the whole old queue in its order, and the first host
    of the new list is returned only by the call after that. *)
Theorem expired_refresh_keeps_queue target rt hosts tm queue env0 :
  routing_table rt !! str target = Some (hosts, tm) →
  routable_hosts rt !! str target = Some queue →
  queue ≠ [] →
  _is_tm_expired conf (time_check env0) tm = true →
  let new := get_hosts env0 target in
  let rt1 := set_routing_table (str target) (new, time_fetch env0) rt in
  _update_routing_table str conf target env0 rt = (Ok tt, rt1) ∧
  routing_table rt1 !! str target = Some (new, time_fetch env0) ∧
  routable_hosts rt1 = routable_hosts rt ∧
  get_all_hosts str conf target env0 rt = (Ok queue, rt1) ∧
  (∀ envs, S (length envs) = length queue →
     (consecutive (get_routable_host str conf target) (env0 :: envs) rt).1 =
       Ok queue) ∧
  (∀ envs env_next n0,
     S (length envs) = length queue →
     Forall (λ env, _is_tm_expired conf (time_check env) (time_fetch env0)
                    = false) (envs ++ [env_next]) →
     new !! 0%nat = Some n0 →
     (consecutive (get_routable_host str conf target)
        (env0 :: envs ++ [env_next]) rt).1 = Ok (queue ++ [n0])).
Proof.
  intros Hrec Hq Hne Hexp new rt1.
  pose proof (update_expired target env0 rt hosts tm Hrec Hexp) as Hupd.
  assert (routing_table rt1 !! str target = Some (new, time_fetch env0))
    as Hrec1 by (simpl; by rewrite lookup_insert_eq).
  split_and!; try done.
  - rewrite (get_all_hosts_eq target env0 rt rt1 Hupd). simpl. by rewrite Hq.
  - intros envs Hlen.
    destruct (drain_queue target queue rt (env0 :: envs))
      as (rt' & ? & ? & Hrun & _); try done.
    by rewrite Hrun.
  - intros envs env_next n0 Hlen [Hfresh Hnext]%Forall_app Hn0.
    rewrite Forall_singleton in Hnext.
    pose proof (drain_after_refresh target rt hosts tm queue env0 envs
                  Hrec Hq Hexp Hlen Hfresh) as Hdrain.
    fold new in Hdrain. fold rt1 in Hdrain.
    set (rt2 := set_routable_hosts (str target) new rt1) in *.
    pose proof (round_robin_step target env_next rt2 new (time_fetch env0)
                  0%nat n0) as Hstep.
    rewrite app_comm_cons.
    erewrite consecutive_app; [done | exact Hdrain |].
    eapply consecutive_cons; [|done].
    apply Hstep; [exact Hrec1 | | exact Hn0 | exact Hnext].
    subst rt2. simpl. by rewrite lookup_insert_eq.
Qed.

(** *** The queue after a call, and empty discovery *)

Lemma pop_and_renew_routing_table k rt1 :
  routing_table (pop_and_renew k rt1).2 = routing_table rt1.
Proof.
  unfold pop_and_renew.
  destruct (routable_hosts rt1 !! k) as [[|host rest]|]; try done.
  case_bool_decide; [|done].
  by destruct (routing_table rt1 !! k) as [[hosts tm]|].
Qed.

(** C10 (amended).  When [get_routable_host] returns normally and the
    target's routing record as the call leaves it, which is the record the
    renewal uses, holds a non-empty list, the target's queue is non-empty
    afterwards: a pop that empties the queue is followed at once by its
    renewal from the record.  That record is the one from before the call
    when the call finds it not expired; so a record that is non-empty
    before the call and not expired gives a non-empty queue after it. *)
Theorem queue_nonempty_after_return target env rt host rt' :
  get_routable_host str conf target env rt = (Ok host, rt') →
  (∀ hosts tm,
     routing_table rt' !! str target = Some (hosts, tm) → hosts ≠ [] →
     ∃ queue, routable_hosts rt' !! str target = Some queue ∧ queue ≠ []) ∧
  (∀ hosts tm,
     routing_table rt !! str target = Some (hosts, tm) → hosts ≠ [] →
     _is_tm_expired conf (time_check env) tm = false →
     ∃ queue, routable_hosts rt' !! str target = Some queue ∧ queue ≠ []).
Proof.
  intros Hcall.
  assert (∀ rt1, _update_routing_table str conf target env rt = (Ok tt, rt1) →
            routing_table rt' = routing_table rt1 ∧
            ∀ hosts tm,
              routing_table rt1 !! str target = Some (hosts, tm) → hosts ≠ [] →
              ∃ queue, routable_hosts rt' !! str target = Some queue ∧
                       queue ≠ []) as Hmain.
  { intros rt1 Hupd.
    rewrite (get_routable_host_eq target env rt rt1 Hupd) in Hcall.
    split.
    { rewrite <- (pop_and_renew_routing_table (str target) rt1).
      by rewrite Hcall. }
    intros hosts tm Hrec Hne. unfold pop_and_renew in Hcall.
    destruct (routable_hosts rt1 !! str target) as [[|h rest]|]; try done.
    rewrite Hrec in Hcall. case_bool_decide as Hrest.
    - injection Hcall as <- <-. exists hosts. simpl.
      by rewrite lookup_insert_eq.
    - injection Hcall as <- <-. exists rest. simpl.
      by rewrite lookup_insert_eq. }
  destruct (update_returns target env rt) as [rt1 Hupd].
  destruct (Hmain rt1 Hupd) as [Heq Hq]. split.
  - intros hosts tm Hrec Hne. rewrite Heq in Hrec. by eapply Hq.
  - intros hosts tm Hrec Hne Hfresh.
    pose proof (update_fresh target env rt hosts tm Hrec Hfresh) as Hupd'.
    destruct (Hmain rt Hupd') as [_ Hq']. by eapply Hq'.
Qed.

(** C3 (amended).  When the matchmaker returns no host for a target,
    [get_routable_host] does not return a host in these two cases; the pop
    on the empty queue raises [IndexError].  If the target has no routing
    record yet, the record with the empty list and the empty queue built
    from it are what the table keeps.  If the target has a record and its
    queue is already empty, the queue stays empty and the record is as the
    lookup leaves it: the empty list when the record was expired, the old
    record otherwise. *)
Theorem empty_discovery_raises_IndexError target env rt :
  get_hosts env target = [] →
  (routing_table rt !! str target = None →
   let rt' := set_routable_hosts (str target) []
                (set_routing_table (str target) ([], time_fetch env) rt) in
   get_routable_host str conf target env rt = (Raise IndexError, rt') ∧
   routing_table rt' !! str target = Some ([], time_fetch env) ∧
   routable_hosts rt' !! str target = Some []) ∧
  (∀ hosts tm,
     routing_table rt !! str target = Some (hosts, tm) →
     routable_hosts rt !! str target = Some [] →
     let rt' := if _is_tm_expired conf (time_check env) tm
                then set_routing_table (str target) ([], time_fetch env) rt
                else rt in
     get_routable_host str conf target env rt = (Raise IndexError, rt') ∧
     routing_table rt' !! str target =
       Some (if _is_tm_expired conf (time_check env) tm
             then ([], time_fetch env) else (hosts, tm)) ∧
     routable_hosts rt' !! str target = Some []).
Proof.
  intros Hempty. split.
  - intros Hrec rt'. split_and!.
    + rewrite (get_routable_host_eq target env rt _
                 (update_missing target env rt Hrec)), Hempty.
      unfold pop_and_renew. simpl. by rewrite lookup_insert_eq.
    + subst rt'. simpl. by rewrite lookup_insert_eq.
    + subst rt'. simpl. by rewrite lookup_insert_eq.
  - intros hosts tm Hrec Hq.
    destruct (_is_tm_expired conf (time_check env) tm) eqn:Hexp; simpl.
    + split_and!.
      * rewrite (get_routable_host_eq target env rt _
                   (update_expired target env rt hosts tm Hrec Hexp)), Hempty.
        unfold pop_and_renew. simpl. by rewrite Hq.
      * by rewrite lookup_insert_eq.
      * done.
    + split_and!; [|done..].
      rewrite (get_routable_host_eq target env rt rt
                 (update_fresh target env rt hosts tm Hrec Hexp)).
      unfold pop_and_renew. by rewrite Hq.
Qed.

(** *** The time-to-live *)

Lemma never_expires now tm :
  zmq_target_expire conf < 0 → _is_tm_expired conf now tm = false.
Proof. intros Hneg. unfold _is_tm_expired. apply andb_false_iff. lia. Qed.

(** C9.  A record fetched at [tm] is expired at [now] exactly when
    [0 <= zmq_target_expire <= now - tm].  With a negative value it is never
    expired, so once the record is there no lookup fetches again: the
    lookup leaves the table as it is and no run of calls changes the
    records.  With the value 0 it is expired at every [now >= tm], and the
    lookup fetches again. *)
Theorem ttl_expiry tm now :
  (_is_tm_expired conf now tm = true ↔
     0 ≤ zmq_target_expire conf ∧ zmq_target_expire conf ≤ now - tm) ∧
  (zmq_target_expire conf < 0 → _is_tm_expired conf now tm = false) ∧
  (zmq_target_expire conf = 0 → tm ≤ now →
     _is_tm_expired conf now tm = true) ∧
  (zmq_target_expire conf < 0 →
   ∀ target rt hosts,
     routing_table rt !! str target = Some (hosts, tm) →
     (∀ env, _update_routing_table str conf target env rt = (Ok tt, rt)) ∧
     (∀ envs,
        routing_table
          (consecutive (get_routable_host str conf target) envs rt).2 =
        routing_table rt) ∧
     (∀ envs, (consecutive (get_all_hosts str conf target) envs rt).2 = rt)) ∧
  (zmq_target_expire conf = 0 →
   ∀ target env rt hosts,
     routing_table rt !! str target = Some (hosts, tm) →
     tm ≤ time_check env →
     _update_routing_table str conf target env rt =
       (Ok tt, set_routing_table (str target)
                 (get_hosts env target, time_fetch env) rt)).
Proof.
  split_and!.
  - apply is_tm_expired_spec.
  - apply never_expires.
  - intros Hzero Hle. apply is_tm_expired_spec. lia.
  - intros Hneg target rt hosts Hrec. split_and!.
    + intros env. eapply update_fresh; [done|]. by apply never_expires.
    + intros envs.
      apply (consecutive_preserves (get_routable_host str conf target)
               (λ s, routing_table s = routing_table rt)); [|done].
      intros env s Hs.
      rewrite (get_routable_host_eq target env s s).
      * by rewrite pop_and_renew_routing_table.
      * eapply update_fresh; [by rewrite Hs|]. by apply never_expires.
    + intros envs.
      apply (consecutive_preserves (get_all_hosts str conf target)
               (λ s, s = rt)); [|done].
      intros env s ->.
      rewrite (get_all_hosts_eq target env rt rt); [done|].
      eapply update_fresh; [done|]. by apply never_expires.
  - intros Hzero target env rt hosts Hrec Hle.
    eapply update_expired; [done|]. apply is_tm_expired_spec. lia.
Qed.

(** *** The snapshot read *)

(** C6 (amended).  [get_all_hosts] always returns a list and pops nothing.
    It first refreshes the routing record when that is missing or
    TTL-expired.  When the record was missing it builds the queue from the
    fetched list and returns that whole list.  When a record was there it
    leaves the queue as it is, and if the record is not expired and the
    queue holds the record's whole list, that list is returned.  A further
    call that finds the record not expired returns the same list and changes
    nothing. *)
Theorem get_all_hosts_snapshot target env rt :
  ∃ out rt1,
    get_all_hosts str conf target env rt = (Ok out, rt1) ∧
    (routing_table rt !! str target = None →
       out = get_hosts env target ∧
       rt1 = set_routable_hosts (str target) (get_hosts env target)
               (set_routing_table (str target)
                  (get_hosts env target, time_fetch env) rt)) ∧
    (∀ hosts tm,
       routing_table rt !! str target = Some (hosts, tm) →
       routable_hosts rt1 = routable_hosts rt ∧
       (_is_tm_expired conf (time_check env) tm = true →
          rt1 = set_routing_table (str target)
                  (get_hosts env target, time_fetch env) rt) ∧
       (_is_tm_expired conf (time_check env) tm = false →
          rt1 = rt ∧
          (routable_hosts rt !! str target = Some hosts → out = hosts))) ∧
    (∀ env2 hosts1 tm1,
       routing_table rt1 !! str target = Some (hosts1, tm1) →
       _is_tm_expired conf (time_check env2) tm1 = false →
       get_all_hosts str conf target env2 rt1 = (Ok out, rt1)).
Proof.
  destruct (update_returns target env rt) as [rt1 Hupd].
  exists (default [] (routable_hosts rt1 !! str target)), rt1.
  split_and!.
  - by apply get_all_hosts_eq.
  - intros Hnone. rewrite (update_missing target env rt Hnone) in Hupd.
    injection Hupd as <-. simpl. by rewrite lookup_insert_eq.
  - intros hosts tm Hrec. split_and!.
    + destruct (update_present target env rt hosts tm Hrec)
        as (rt1' & ? & ? & Hupd' & Hq & _). congruence.
    + intros Hexp.
      rewrite (update_expired target env rt hosts tm Hrec Hexp) in Hupd.
      by injection Hupd as <-.
    + intros Hfresh.
      rewrite (update_fresh target env rt hosts tm Hrec Hfresh) in Hupd.
      injection Hupd as <-. split; [done|]. by intros ->.
  - intros env2 hosts1 tm1 Hrec1 Hfresh.
    by rewrite (get_all_hosts_eq target env2 rt1 rt1
                  (update_fresh target env2 rt1 hosts1 tm1 Hrec1 Hfresh)).
Qed.

End RoutingTableFacts.

Section SenderFacts.

Context {Target PyObj : Type} (str : Target → string) (conf : Conf).
Context (dumps : PyObj → string) (CALL_TYPE : Z) (DIRECT_TYPES : list Z).
Context (target_to_subscribe_filter : Target → string).
Implicit Types (request : Request Target PyObj) (env : Env Target).
Implicit Types (s : Sender) (routing_key : string).

Lemma do_send_request_eq request routing_key s :
  _do_send_request dumps request routing_key s =
    (Ok tt, {| sender_routing_table := sender_routing_table s;
               socket := socket s ++ envelope dumps request routing_key |}).
Proof.
  unfold _do_send_request, socket_send_pyobj, socket_send, envelope. run.
  by rewrite <- !app_assoc.
Qed.

Lemma for_each_do_send_request request routing_keys : ∀ s,
  for_each routing_keys (λ routing_key, _do_send_request dumps request routing_key) s =
    (Ok tt, {| sender_routing_table := sender_routing_table s;
               socket := socket s ++
                 concat (envelope dumps request <$> routing_keys) |}).
Proof.
  induction routing_keys as [|key keys IH]; intros s.
  - simpl. run. rewrite app_nil_r. by destruct s.
  - cbn [for_each]. unfold mbind, M_bind, bind.
    rewrite do_send_request_eq, IH. simpl. by rewrite <- app_assoc.
Qed.

(** C5.  A request whose [msg_type] is [CALL_TYPE] makes [send_request]
    raise [UnsupportedSendPattern] with that [msg_type]; nothing is sent and
    the routing table and the socket are as before. *)
Theorem call_unsupported request env s :
  msg_type request = CALL_TYPE →
  send_request str conf dumps CALL_TYPE DIRECT_TYPES
    target_to_subscribe_filter request env s =
    (Raise (UnsupportedSendPattern (msg_type request)), s).
Proof.
  intros Hcall. unfold send_request.
  by rewrite bool_decide_eq_true_2.
Qed.

(** C7.  With [use_pub_sub] off, a request that is not a call and whose
    target's snapshot read gives [A, B] makes [send_request] send exactly
    two envelopes, the first with routing key A and the second with routing
    key B; the two agree in every frame but the routing key, which is the
    third. *)
Theorem fan_out_two_envelopes request env s A B rt' :
  use_pub_sub conf = false →
  msg_type request ≠ CALL_TYPE →
  get_all_hosts str conf (target request) env (sender_routing_table s) =
    (Ok [A; B], rt') →
  send_request str conf dumps CALL_TYPE DIRECT_TYPES
    target_to_subscribe_filter request env s =
    (Ok tt, {| sender_routing_table := rt';
               socket := socket s ++ envelope dumps request A
                                  ++ envelope dumps request B |}) ∧
  envelope dumps request A !! 2%nat = Some (A, SNDMORE) ∧
  envelope dumps request B !! 2%nat = Some (B, SNDMORE) ∧
  ∀ i, i ≠ 2%nat →
    envelope dumps request A !! i = envelope dumps request B !! i.
Proof.
  intros Hmode Hcast Hall. split_and!; try done.
  - unfold send_request.
    rewrite bool_decide_eq_false_2, Hmode by done.
    unfold on_routing_table, mbind, M_bind, bind. rewrite Hall.
    rewrite for_each_do_send_request. by do 3 f_equal.
  - intros i Hi. by do 6 (destruct i as [|i]; try done).
Qed.

(** C8.  Every request that is sent goes out as six frames in this order:
    the empty frame, the decimal rendering of [msg_type], the routing key,
    [message_id], the serialised context and the serialised message; all but
    the last carry [SNDMORE].  This holds for [_do_send_request] of the
    dealer publisher, hence for every envelope [send_request] sends, and for
    the call sender, whose routing key is the host [get_routable_host]
    returns; when that call does not return a host, nothing is sent. *)
Theorem six_frame_envelope request env s :
  let frames routing_key :=
    [ ("", SNDMORE); (pretty (msg_type request), SNDMORE);
      (routing_key, SNDMORE); (message_id request, SNDMORE);
      (dumps (context request), SNDMORE);
      (dumps (message request), NOFLAGS) ] in
  (∀ routing_key,
     _do_send_request dumps request routing_key s =
       (Ok tt, {| sender_routing_table := sender_routing_table s;
                  socket := socket s ++ frames routing_key |})) ∧
  (∃ routing_keys,
     socket (send_request str conf dumps CALL_TYPE DIRECT_TYPES
               target_to_subscribe_filter request env s).2 =
       socket s ++ concat (frames <$> routing_keys)) ∧
  (∀ host rt',
     get_routable_host str conf (target request) env
       (sender_routing_table s) = (Ok host, rt') →
     CallSenderProxy_do_send_request str conf dumps request env s =
       (Ok tt, {| sender_routing_table := rt';
                  socket := socket s ++ frames host |})) ∧
  (∀ e rt',
     get_routable_host str conf (target request) env
       (sender_routing_table s) = (Raise e, rt') →
     CallSenderProxy_do_send_request str conf dumps request env s =
       (Raise e, {| sender_routing_table := rt'; socket := socket s |})).
Proof.
  intros frames. split_and!.
  - intros routing_key. apply do_send_request_eq.
  - unfold send_request. case_bool_decide.
    { exists []. simpl. by rewrite ?app_nil_r. }
    destruct (use_pub_sub conf).
    + case_bool_decide.
      * unfold on_routing_table, mbind, M_bind, bind.
        destruct (get_routable_host _ _ _ _ _) as [[host| |] rt'].
        -- exists [host]. rewrite do_send_request_eq. simpl.
           by rewrite ?app_nil_r.
        -- exists []. simpl. by rewrite ?app_nil_r.
        -- exists []. simpl. by rewrite ?app_nil_r.
      * exists [target_to_subscribe_filter (target request)].
        unfold mbind, M_bind, bind, mret, M_ret, ret.
        rewrite do_send_request_eq. simpl. by rewrite ?app_nil_r.
    + unfold on_routing_table, mbind, M_bind, bind.
      destruct (get_all_hosts _ _ _ _ _) as [[hosts| |] rt'].
      * exists hosts. by rewrite for_each_do_send_request.
      * exists []. simpl. by rewrite ?app_nil_r.
      * exists []. simpl. by rewrite ?app_nil_r.
  - intros host rt' Hhost. unfold CallSenderProxy_do_send_request,
      on_routing_table. run. rewrite Hhost.
    unfold socket_send_pyobj, socket_send. run. by rewrite <- !app_assoc.
  - intros e rt' Hraise. unfold CallSenderProxy_do_send_request,
      on_routing_table. run. by rewrite Hraise.
Qed.

End SenderFacts.

Section ReplyFacts.

Context {PyObj : Type} (int : string → option Z).
Context (loads : string → option PyObj) (REPLY_TYPE : Z).

(** C4 (amended).  A reply whose first frame is not empty, or whose
    message-type frame does not read as [REPLY_TYPE], makes [receive_method]
    raise, so no reply is returned to the waiter: [AssertionError] from the
    failed [assert] in both cases, or [ValueError] from [int()] when the
    type frame is not a number.  The frames after the failing one are left
    unread. *)
Theorem malformed_reply_raises :
  (∀ first rest,
     first ≠ "" →
     receive_method int loads REPLY_TYPE (first :: rest) =
       (Raise (AssertionError "Empty expected!"), rest)) ∧
  (∀ reply_id type_frame rest n,
     int type_frame = Some n → n ≠ REPLY_TYPE →
     receive_method int loads REPLY_TYPE ("" :: reply_id :: type_frame :: rest) =
       (Raise (AssertionError "Reply is expected!"), rest)) ∧
  (∀ reply_id type_frame rest,
     int type_frame = None →
     receive_method int loads REPLY_TYPE ("" :: reply_id :: type_frame :: rest) =
       (Raise ValueError, rest)).
Proof.
  split_and!.
  - intros first rest Hfirst. unfold receive_method, recv, assert. run.
    by rewrite bool_decide_eq_false_2.
  - intros reply_id type_frame rest n Hint Hn.
    unfold receive_method, recv, assert. run. rewrite Hint. run.
    by rewrite bool_decide_eq_false_2.
  - intros reply_id type_frame rest Hint.
    unfold receive_method, recv, assert. run. by rewrite Hint.
Qed.

End ReplyFacts.

(** * Examples *)

(** C1, the scenario: record and queue [A, B, C]; four calls give
    [A, B, C, A]. *)
Lemma round_robin_cycle_abc :
  (consecutive (get_routable_host id (conf_of 120 true) "T")
     [world ["A"; "B"; "C"] 1; world ["A"; "B"; "C"] 2;
      world ["A"; "B"; "C"] 3; world ["A"; "B"; "C"] 4] table_abc).1 =
  Ok ["A"; "B"; "C"; "A"].
Proof.
  apply (round_robin_cycle id (conf_of 120 true) "T" table_abc
           ["A"; "B"; "C"] 0 0%nat).
  - reflexivity.
  - reflexivity.
  - simpl. lia.
  - repeat constructor.
Defined.

(** The same from an empty table: the first call fetches [A, B, C]. *)
Example cold_cache_abc :
  (consecutive (get_routable_host id (conf_of 120 true) "T")
     [world ["A"; "B"; "C"] 0; world ["A"; "B"; "C"] 1;
      world ["A"; "B"; "C"] 2; world ["A"; "B"; "C"] 3]
     RoutingTable_init).1 = Ok ["A"; "B"; "C"; "A"].
Proof. by vm_compute. Qed.

(** C1 as worded fails when the queue lags behind the record.  With a
    time-to-live of 10: the call at time 0 fetches [A, B, C] and returns A;
    the call at time 10 finds the record expired, replaces it by [D] and
    returns B; the queue is left as [C].  The record now holds the single
    host D and is not expired at time 11, yet the call at time 11 returns C,
    which no cycle over [D] contains. *)
Lemma round_robin_lagging_queue :
  let conf := conf_of 10 true in
  let rt := (consecutive (get_routable_host id conf "T")
               [world ["A"; "B"; "C"] 0; world ["D"] 10]
               RoutingTable_init).2 in
  routing_table rt !! "T" = Some (["D"], 10) ∧
  _is_tm_expired conf 11 10 = false ∧
  (get_routable_host id conf "T" (world ["D"] 11) rt).1 = Ok "C" ∧
  ∀ i n, "C" ∉ round_robin ["D"] i n.
Proof.
  split_and!; [by vm_compute..|].
  intros i n [k [_ Hk]]%list_elem_of_omap.
  apply list_elem_of_lookup_2, list_elem_of_singleton in Hk. discriminate.
Qed.

(** C2, an instance.  Time-to-live 10, record [A, B, C] fetched at 0, queue
    [B, C].  The call at time 10 finds the record expired and fetches
    [D, E]; the calls at 10 and 11 still return B and C, and the call at 12
    returns D. *)
Lemma expired_refresh_keeps_queue_bc :
  (consecutive (get_routable_host id (conf_of 10 true) "T")
     [world ["D"; "E"] 10; world ["D"; "E"] 11; world ["D"; "E"] 12]
     table_bc).1 = Ok ["B"; "C"; "D"].
Proof.
  pose proof (expired_refresh_keeps_queue id (conf_of 10 true) "T" table_bc
                ["A"; "B"; "C"] 0 ["B"; "C"] (world ["D"; "E"] 10))
    as Hthm.
  destruct Hthm as (_ & _ & _ & _ & _ & Hnext).
  - reflexivity.
  - reflexivity.
  - discriminate.
  - reflexivity.
  - apply (Hnext [world ["D"; "E"] 11] (world ["D"; "E"] 12) "D").
    + reflexivity.
    + repeat constructor.
    + reflexivity.
Defined.

(** The scenario of the specification with time-to-live 0: the first lookup
    fetches [A, B]; the matchmaker then answers [C]; the next call still
    returns B, and the call after that returns C. *)
Example ttl_zero_scenario :
  (consecutive (get_routable_host id (conf_of 0 true) "T")
     [world ["A"; "B"] 0; world ["C"] 1; world ["C"] 2]
     RoutingTable_init).1 = Ok ["A"; "B"; "C"].
Proof. by vm_compute. Qed.

(** C3, instances: a first lookup for which the matchmaker knows no host
    leaves the empty record and the empty queue; a lookup on
    [table_empty_queue], whose record [A] is not expired, leaves that
    record. *)
Lemma empty_discovery_cold_cache :
  let conf := conf_of 120 true in
  ((get_routable_host id conf "T" (world [] 0) RoutingTable_init).1 =
     Raise IndexError ∧
   routing_table
     (get_routable_host id conf "T" (world [] 0) RoutingTable_init).2 !! "T" =
     Some ([], 0) ∧
   routable_hosts
     (get_routable_host id conf "T" (world [] 0) RoutingTable_init).2 !! "T" =
     Some []) ∧
  get_routable_host id conf "T" (world [] 30) table_empty_queue =
    (Raise IndexError, table_empty_queue).
Proof.
  intros conf. split.
  - destruct (empty_discovery_raises_IndexError id conf "T" (world [] 0)
                RoutingTable_init) as [Hcold _]; [reflexivity|].
    destruct Hcold as (Hcall & Hrec & Hq); [reflexivity|].
    rewrite Hcall. split_and!; [reflexivity | exact Hrec | exact Hq].
  - destruct (empty_discovery_raises_IndexError id conf "T" (world [] 30)
                table_empty_queue) as [_ Hwarm]; [reflexivity|].
    destruct (Hwarm ["A"] 0) as (Hcall & _); [reflexivity..|].
    exact Hcall.
Defined.

(** Once the queue of a target is empty it stays so: the renewal is only
    reached after a pop, and the pop on the empty queue raises.  Here the
    second lookup fetches [A] into the record and still fails. *)
Example empty_queue_is_not_renewed :
  let conf := conf_of 0 true in
  let rt1 := (get_routable_host id conf "T" (world [] 0)
                RoutingTable_init).2 in
  let '(out, rt2) := get_routable_host id conf "T" (world ["A"] 1) rt1 in
  out = Raise IndexError ∧
  routing_table rt2 !! "T" = Some (["A"], 1) ∧
  routable_hosts rt2 !! "T" = Some [].
Proof. by vm_compute. Qed.

(** C3 as worded fails: on a first lookup with no host known the call
    raises [IndexError], not [NoEndpointsAvailable]. *)
Lemma empty_discovery_not_NoEndpointsAvailable :
  (get_routable_host id (conf_of 120 true) "T" (world [] 0)
     RoutingTable_init).1 = Raise IndexError ∧
  (get_routable_host id (conf_of 120 true) "T" (world [] 0)
     RoutingTable_init).1 ≠ Raise NoEndpointsAvailable.
Proof. split; by vm_compute. Qed.

(** C4, instances: a reply that starts with a non-empty frame, one whose
    type frame reads 1 where [REPLY] is 5, and one whose type frame is not a
    number. *)
Lemma malformed_reply_examples :
  receive_method decimal_int Some REPLY ["x"; "id"; "5"; "m1"; "payload"] =
    (Raise (AssertionError "Empty expected!"), ["id"; "5"; "m1"; "payload"]) ∧
  receive_method decimal_int Some REPLY [""; "id"; "1"; "m1"; "payload"] =
    (Raise (AssertionError "Reply is expected!"), ["m1"; "payload"]) ∧
  receive_method decimal_int Some REPLY [""; "id"; "five"; "m1"; "payload"] =
    (Raise ValueError, ["m1"; "payload"]).
Proof.
  destruct (malformed_reply_raises (PyObj := string) decimal_int Some REPLY)
    as (Hfirst & Htype & Hint).
  split_and!.
  - apply Hfirst. discriminate.
  - apply (Htype "id" "1" ["m1"; "payload"] 1); [reflexivity | discriminate].
  - apply Hint. reflexivity.
Defined.

(** C4 as worded fails: the malformed replies raise [AssertionError], not
    [ProtocolViolation]; a well-formed reply is returned. *)
Lemma malformed_reply_not_ProtocolViolation :
  (receive_method decimal_int Some REPLY
     ["x"; "id"; "5"; "m1"; "payload"]).1 =
    Raise (AssertionError "Empty expected!") ∧
  (receive_method decimal_int Some REPLY
     ["x"; "id"; "5"; "m1"; "payload"]).1 ≠ Raise ProtocolViolation ∧
  (receive_method decimal_int Some REPLY
     [""; "id"; "1"; "m1"; "payload"]).1 ≠ Raise ProtocolViolation ∧
  (receive_method decimal_int Some REPLY
     [""; "id"; "5"; "m1"; "payload"]).1 = Ok "payload".
Proof. split_and!; by vm_compute. Qed.

(** C5, an instance. *)
Lemma call_unsupported_example :
  send_request id (conf_of 120 true) id CALL DIRECT id call_request
    (world ["A"; "B"] 0) fresh_sender =
  (Raise (UnsupportedSendPattern CALL), fresh_sender).
Proof.
  apply (call_unsupported id (conf_of 120 true) id CALL DIRECT id
           call_request).
  reflexivity.
Defined.

(** C6, an instance: a first snapshot read, which builds the queue and
    returns the fetched list, and a second one that changes nothing. *)
Lemma get_all_hosts_snapshot_example :
  ∃ rt1,
    get_all_hosts id (conf_of 120 false) "T" (world ["A"; "B"] 0)
      RoutingTable_init = (Ok ["A"; "B"], rt1) ∧
    get_all_hosts id (conf_of 120 false) "T" (world ["C"] 1) rt1 =
      (Ok ["A"; "B"], rt1).
Proof.
  destruct (get_all_hosts_snapshot id (conf_of 120 false) "T"
              (world ["A"; "B"] 0) RoutingTable_init)
    as (out & rt1 & Hcall & Hmissing & _ & Hagain).
  destruct Hmissing as [-> ->]; [reflexivity|].
  eexists. split; [exact Hcall|].
  apply (Hagain (world ["C"] 1) ["A"; "B"] 0); reflexivity.
Defined.

(** C6 as worded fails.  With time-to-live 0, the first snapshot read
    changes the queue map, which had no entry for the target and now holds
    [A, B]; the second one, for which the matchmaker answers [C], replaces
    the record by [C] and returns [A, B], the queue built before. *)
Lemma get_all_hosts_builds_and_lags :
  let conf := conf_of 0 false in
  let '(out1, rt1) :=
    get_all_hosts id conf "T" (world ["A"; "B"] 0) RoutingTable_init in
  let '(out2, rt2) := get_all_hosts id conf "T" (world ["C"] 1) rt1 in
  routable_hosts RoutingTable_init !! "T" = None ∧
  routable_hosts rt1 !! "T" = Some ["A"; "B"] ∧
  routable_hosts rt1 ≠ routable_hosts RoutingTable_init ∧
  routing_table rt2 !! "T" = Some (["C"], 1) ∧
  out2 = Ok ["A"; "B"].
Proof. by vm_compute. Qed.

(** C7, an instance: a cast on a fresh sender whose target the matchmaker
    resolves to [A, B]. *)
Lemma fan_out_two_envelopes_example :
  socket (send_request id (conf_of 120 false) id CALL DIRECT id cast_request
            (world ["A"; "B"] 0) fresh_sender).2 =
  [ ("", SNDMORE); ("2", SNDMORE); ("A", SNDMORE); ("m1", SNDMORE);
    ("ctx", SNDMORE); ("msg", NOFLAGS);
    ("", SNDMORE); ("2", SNDMORE); ("B", SNDMORE); ("m1", SNDMORE);
    ("ctx", SNDMORE); ("msg", NOFLAGS) ].
Proof.
  pose proof (fan_out_two_envelopes id (conf_of 120 false) id CALL DIRECT id
                cast_request (world ["A"; "B"] 0) fresh_sender "A" "B"
                (get_all_hosts id (conf_of 120 false) "T"
                   (world ["A"; "B"] 0) RoutingTable_init).2) as Hthm.
  destruct Hthm as [Hsend _].
  - reflexivity.
  - discriminate.
  - reflexivity.
  - rewrite Hsend. reflexivity.
Defined.

(** C8, an instance: the call sender on a fresh sender. *)
Lemma six_frame_envelope_example :
  socket (CallSenderProxy_do_send_request id (conf_of 120 true) id
            call_request (world ["A"; "B"] 0) fresh_sender).2 =
  [ ("", SNDMORE); ("1", SNDMORE); ("A", SNDMORE); ("m2", SNDMORE);
    ("ctx", SNDMORE); ("msg", NOFLAGS) ].
Proof.
  destruct (six_frame_envelope id (conf_of 120 true) id CALL DIRECT id
              call_request (world ["A"; "B"] 0) fresh_sender)
    as (_ & _ & Hcall & _).
  erewrite Hcall; reflexivity.
Defined.

(** C9, instances: never expired with -1; expired at once with 0; with 120,
    expired from 120 ticks after the fetch on. *)
Lemma ttl_expiry_examples :
  _is_tm_expired (conf_of (-1) true) 1000000 0 = false ∧
  _is_tm_expired (conf_of 0 true) 7 7 = true ∧
  _is_tm_expired (conf_of 120 true) 119 0 = false ∧
  _is_tm_expired (conf_of 120 true) 120 0 = true.
Proof.
  split_and!.
  - destruct (ttl_expiry (Target := string) id (conf_of (-1) true) 0 1000000)
      as (_ & Hnever & _).
    apply Hnever. simpl. lia.
  - destruct (ttl_expiry (Target := string) id (conf_of 0 true) 7 7)
      as (_ & _ & Hzero & _).
    apply Hzero; [reflexivity | lia].
  - reflexivity.
  - destruct (ttl_expiry (Target := string) id (conf_of 120 true) 0 120)
      as (Hiff & _).
    apply Hiff. simpl. lia.
Defined.

(** C10 as worded fails when the refresh fetches an empty list.  With a
    time-to-live of 10: the call at time 0 fetches [A, B], returns A and
    leaves the queue [B].  The record holds [A, B] when the call at time 10
    is made; that call finds it expired, fetches the empty list, returns B
    normally, and renews the queue from the empty record: the queue is left
    empty. *)
Lemma queue_empty_after_return :
  let conf := conf_of 10 true in
  let rt := (get_routable_host id conf "T" (world ["A"; "B"] 0)
               RoutingTable_init).2 in
  routing_table rt !! "T" = Some (["A"; "B"], 0) ∧
  routable_hosts rt !! "T" = Some ["B"] ∧
  (get_routable_host id conf "T" (world [] 10) rt).1 = Ok "B" ∧
  routable_hosts (get_routable_host id conf "T" (world [] 10) rt).2 !! "T" =
    Some [] ∧
  routing_table (get_routable_host id conf "T" (world [] 10) rt).2 !! "T" =
    Some ([], 10).
Proof. split_and!; by vm_compute. Qed.

(** C10, an instance: the call that pops the last host C of the queue
    leaves the queue renewed to [A, B, C]. *)
Lemma queue_nonempty_after_return_example :
  let rt := (consecutive (get_routable_host id (conf_of 120 true) "T")
               [world [] 1] table_bc).2 in
  let rt' := (get_routable_host id (conf_of 120 true) "T" (world [] 2) rt).2 in
  ∃ queue, routable_hosts rt' !! "T" = Some queue ∧ queue ≠ [].
Proof.
  intros rt rt'.
  destruct (queue_nonempty_after_return id (conf_of 120 true) "T"
              (world [] 2) rt "C" rt') as [Hafter _].
  - reflexivity.
  - apply (Hafter ["A"; "B"; "C"] 0); [reflexivity | discriminate].
Defined.

(** * Further properties *)

Section RoutingTableMore.

Context {Target : Type} (str : Target → string) (conf : Conf).
Implicit Types (rt : RoutingTable) (env : Env Target) (target : Target).
Implicit Types (hosts queue : list string) (tm : Z) (i : nat) (k : string).

(** *** Other keys *)

Lemma update_frame target env rt rt1 k :
  k ≠ str target →
  _update_routing_table str conf target env rt = (Ok tt, rt1) →
  routing_table rt1 !! k = routing_table rt !! k ∧
  routable_hosts rt1 !! k = routable_hosts rt !! k.
Proof.
  intros Hne Hupd.
  destruct (routing_table rt !! str target) as [[hosts tm]|] eqn:Hrec.
  - destruct (_is_tm_expired conf (time_check env) tm) eqn:Hexp.
    + rewrite (update_expired str conf target env rt hosts tm Hrec Hexp)
        in Hupd. injection Hupd as <-. simpl.
      by rewrite lookup_insert_ne.
    + rewrite (update_fresh str conf target env rt hosts tm Hrec Hexp)
        in Hupd. by injection Hupd as <-.
  - rewrite (update_missing str conf target env rt Hrec) in Hupd.
    injection Hupd as <-. simpl. by rewrite !lookup_insert_ne.
Qed.

Lemma pop_and_renew_frame k' k rt1 :
  k ≠ k' →
  routing_table (pop_and_renew k' rt1).2 !! k = routing_table rt1 !! k ∧
  routable_hosts (pop_and_renew k' rt1).2 !! k = routable_hosts rt1 !! k.
Proof.
  intros Hne. split; [by rewrite pop_and_renew_routing_table|].
  unfold pop_and_renew.
  destruct (routable_hosts rt1 !! k') as [[|host rest]|]; try done.
  case_bool_decide.
  - destruct (routing_table rt1 !! k') as [[hosts tm]|]; simpl;
      by rewrite lookup_insert_ne.
  - simpl. by rewrite lookup_insert_ne.
Qed.

(** X4.  A call for a target changes neither the record nor the queue of
    any key other than the target's [str()], whether it returns or
    raises. *)
Theorem other_keys_untouched target env rt k :
  k ≠ str target →
  (routing_table (get_routable_host str conf target env rt).2 !! k =
     routing_table rt !! k ∧
   routable_hosts (get_routable_host str conf target env rt).2 !! k =
     routable_hosts rt !! k) ∧
  (routing_table (get_all_hosts str conf target env rt).2 !! k =
     routing_table rt !! k ∧
   routable_hosts (get_all_hosts str conf target env rt).2 !! k =
     routable_hosts rt !! k).
Proof.
  intros Hne. destruct (update_returns str conf target env rt) as [rt1 Hupd].
  destruct (update_frame target env rt rt1 k Hne Hupd) as [Hrec Hq].
  split.
  - rewrite (get_routable_host_eq str conf target env rt rt1 Hupd).
    destruct (pop_and_renew_frame (str target) k rt1) as [-> ->]; done.
  - by rewrite (get_all_hosts_eq str conf target env rt rt1 Hupd).
Qed.

(** *** The keys of the two dictionaries *)

Lemma update_leaves_record target env rt rt1 :
  _update_routing_table str conf target env rt = (Ok tt, rt1) →
  is_Some (routing_table rt1 !! str target).
Proof.
  intros Hupd.
  destruct (routing_table rt !! str target) as [[hosts tm]|] eqn:Hrec.
  - destruct (update_present str conf target env rt hosts tm Hrec)
      as (rt1' & hosts1 & tm1 & Hupd' & _ & Hrec1).
    rewrite Hupd in Hupd'. injection Hupd' as <-. by eexists.
  - rewrite (update_missing str conf target env rt Hrec) in Hupd.
    injection Hupd as <-. simpl. rewrite lookup_insert_eq. by eexists.
Qed.

Lemma update_consistent target env rt rt1 :
  consistent rt →
  _update_routing_table str conf target env rt = (Ok tt, rt1) →
  consistent rt1.
Proof.
  unfold consistent. intros Hdom Hupd.
  destruct (routing_table rt !! str target) as [[hosts tm]|] eqn:Hrec.
  - destruct (_is_tm_expired conf (time_check env) tm) eqn:Hexp.
    + rewrite (update_expired str conf target env rt hosts tm Hrec Hexp)
        in Hupd. injection Hupd as <-. simpl.
      rewrite dom_insert_lookup_L by by eexists. done.
    + rewrite (update_fresh str conf target env rt hosts tm Hrec Hexp)
        in Hupd. by injection Hupd as <-.
  - rewrite (update_missing str conf target env rt Hrec) in Hupd.
    injection Hupd as <-. simpl. rewrite !dom_insert_L. by rewrite Hdom.
Qed.

Lemma pop_and_renew_consistent k rt1 :
  consistent rt1 → consistent (pop_and_renew k rt1).2.
Proof.
  unfold consistent, pop_and_renew. intros Hdom.
  destruct (routable_hosts rt1 !! k) as [[|host rest]|] eqn:Hq; try done.
  assert (∀ hs, dom (<[k:=hs]> (routable_hosts rt1)) =
                dom (routable_hosts rt1)) as Hsame.
  { intros hs. apply dom_insert_lookup_L. by eexists. }
  case_bool_decide.
  - destruct (routing_table rt1 !! k) as [[hosts tm]|]; simpl;
      by rewrite Hsame.
  - simpl. by rewrite Hsame.
Qed.

Lemma calls_keep_consistent target env rt :
  consistent rt →
  consistent (get_routable_host str conf target env rt).2 ∧
  consistent (get_all_hosts str conf target env rt).2.
Proof.
  intros Hdom. destruct (update_returns str conf target env rt) as [rt1 Hupd].
  pose proof (update_consistent target env rt rt1 Hdom Hupd) as Hdom1.
  split.
  - rewrite (get_routable_host_eq str conf target env rt rt1 Hupd).
    by apply pop_and_renew_consistent.
  - by rewrite (get_all_hosts_eq str conf target env rt rt1 Hupd).
Qed.

Lemma reachable_consistent rt0 rt :
  consistent rt0 → reachable_from str conf rt0 rt → consistent rt.
Proof.
  intros Hdom0 Hreach.
  induction Hreach as [|rt target env _ IH|rt target env _ IH]; [done|..];
    by apply calls_keep_consistent.
Qed.

(** *** What a call returns *)

Lemma pop_and_renew_outcome k rt1 r queue :
  routing_table rt1 !! k = Some r →
  routable_hosts rt1 !! k = Some queue →
  (pop_and_renew k rt1).1 = pop_outcome queue.
Proof.
  intros Hrec Hq. unfold pop_and_renew. rewrite Hq, Hrec.
  destruct queue as [|host rest]; [done|]. destruct r.
  by case_bool_decide.
Qed.

Lemma pop_of_queue target env rt r queue :
  routing_table rt !! str target = Some r →
  routable_hosts rt !! str target = Some queue →
  (get_routable_host str conf target env rt).1 = pop_outcome queue.
Proof.
  intros Hrec Hq. destruct r as [hosts tm].
  destruct (update_present str conf target env rt hosts tm Hrec)
    as (rt1 & hosts1 & tm1 & Hupd & Hq1 & Hrec1).
  rewrite (get_routable_host_eq str conf target env rt rt1 Hupd).
  unfold pop_and_renew. rewrite Hq1, Hq, Hrec1.
  destruct queue as [|host rest]; [done|]. by case_bool_decide.
Qed.

Lemma pop_of_discovery target env rt :
  routing_table rt !! str target = None →
  (get_routable_host str conf target env rt).1 =
    pop_outcome (get_hosts env target).
Proof.
  intros Hrec.
  rewrite (get_routable_host_eq str conf target env rt _
             (update_missing str conf target env rt Hrec)).
  unfold pop_and_renew. simpl. rewrite !lookup_insert_eq.
  destruct (get_hosts env target) as [|host rest]; [done|].
  by case_bool_decide.
Qed.

(** X1.  Starting from a table whose two dictionaries have the same keys,
    as the empty table of [__init__] has, every table that calls lead to has
    the same keys in both; so [get_routable_host] never raises [KeyError]
    there: it returns a host or raises [IndexError]. *)
Theorem reachable_tables_consistent rt0 rt :
  consistent rt0 →
  reachable_from str conf rt0 rt →
  consistent rt ∧
  ∀ target env,
    (get_routable_host str conf target env rt).1 = Raise IndexError ∨
    ∃ host, (get_routable_host str conf target env rt).1 = Ok host.
Proof.
  intros Hdom0 Hreach.
  pose proof (reachable_consistent rt0 rt Hdom0 Hreach) as Hdom.
  split; [done|]. intros target env.
  assert (∀ queue, pop_outcome queue = Raise IndexError ∨
                   ∃ host, pop_outcome queue = Ok host) as Hpop.
  { intros [|host rest]; [by left|right; by eexists]. }
  destruct (routing_table rt !! str target) as [r|] eqn:Hrec.
  - assert (is_Some (routable_hosts rt !! str target)) as [queue Hq].
    { apply elem_of_dom. unfold consistent in Hdom. rewrite <- Hdom.
      apply elem_of_dom. by eexists. }
    rewrite (pop_of_queue target env rt r queue Hrec Hq). apply Hpop.
  - rewrite (pop_of_discovery target env rt Hrec). apply Hpop.
Qed.

(** X2.  Which host a call returns.  When the target has a record, it is
    the head of the target's queue, whatever the clock and the matchmaker
    say at that call; when it has none, it is the first host the matchmaker
    returns.  The call raises [IndexError] exactly when that list is
    empty. *)
Theorem returned_host target env rt :
  (routing_table rt !! str target = None →
     (get_routable_host str conf target env rt).1 =
       pop_outcome (get_hosts env target)) ∧
  (∀ r queue,
     routing_table rt !! str target = Some r →
     routable_hosts rt !! str target = Some queue →
     (get_routable_host str conf target env rt).1 = pop_outcome queue).
Proof.
  split.
  - intros Hrec.
    rewrite (get_routable_host_eq str conf target env rt _
               (update_missing str conf target env rt Hrec)).
    apply (pop_and_renew_outcome _ _ (get_hosts env target, time_fetch env));
      simpl; by rewrite lookup_insert_eq.
  - intros [hosts tm] queue Hrec Hq.
    destruct (update_present str conf target env rt hosts tm Hrec)
      as (rt1 & hosts1 & tm1 & Hupd & Hq1 & Hrec1).
    rewrite (get_routable_host_eq str conf target env rt rt1 Hupd).
    apply (pop_and_renew_outcome _ _ (hosts1, tm1)); [done|].
    by rewrite Hq1.
Qed.

(** *** An empty queue stays empty *)

Lemma unroutable_step k target env rt :
  unroutable k rt →
  unroutable k (get_routable_host str conf target env rt).2 ∧
  unroutable k (get_all_hosts str conf target env rt).2.
Proof.
  intros [[r Hrec] Hq]. unfold unroutable.
  destruct (decide (k = str target)) as [->|Hne].
  - destruct r as [hosts tm].
    destruct (update_present str conf target env rt hosts tm Hrec)
      as (rt1 & hosts1 & tm1 & Hupd & Hq1 & Hrec1).
    rewrite (get_routable_host_eq str conf target env rt rt1 Hupd).
    rewrite (get_all_hosts_eq str conf target env rt rt1 Hupd).
    unfold pop_and_renew. rewrite Hq1, Hq. simpl.
    rewrite Hq1, Hq, Hrec1. by split.
  - destruct (update_returns str conf target env rt) as [rt1 Hupd].
    destruct (update_frame target env rt rt1 k Hne Hupd) as [Hrec1 Hq1].
    rewrite (get_routable_host_eq str conf target env rt rt1 Hupd).
    rewrite (get_all_hosts_eq str conf target env rt rt1 Hupd).
    destruct (pop_and_renew_frame (str target) k rt1) as [-> ->]; [done|].
    simpl. rewrite Hrec1, Hq1, Hrec, Hq. by split.
Qed.

Lemma unroutable_reachable k rt rt' :
  unroutable k rt → reachable_from str conf rt rt' → unroutable k rt'.
Proof.
  intros Hstuck Hreach.
  induction Hreach as [|rt' target env _ IH|rt' target env _ IH]; [done|..];
    by apply unroutable_step.
Qed.

(** X3.  Once a target has a record and an empty queue, it stays so in
    every table that further calls lead to, whatever the matchmaker
    answers: [get_routable_host] raises [IndexError] and [get_all_hosts]
    returns the empty list, every time.  The renewal of the queue is only
    reached after a pop that succeeds. *)
Theorem empty_queue_is_final target rt rt' :
  unroutable (str target) rt →
  reachable_from str conf rt rt' →
  ∀ env,
    (get_routable_host str conf target env rt').1 = Raise IndexError ∧
    (get_all_hosts str conf target env rt').1 = Ok [].
Proof.
  intros Hstuck Hreach env.
  destruct (unroutable_reachable _ rt rt' Hstuck Hreach) as [[r Hrec] Hq].
  split.
  - by rewrite (pop_of_queue target env rt' r [] Hrec Hq).
  - destruct r as [hosts tm].
    destruct (update_present str conf target env rt' hosts tm Hrec)
      as (rt1 & hosts1 & tm1 & Hupd & Hq1 & Hrec1).
    rewrite (get_all_hosts_eq str conf target env rt' rt1 Hupd). simpl.
    by rewrite Hq1, Hq.
Qed.

(** X14.  A call that pops the last host of the queue while its refresh
    fetches an empty list returns that host normally, but leaves the target
    with an empty queue: every later call for it raises [IndexError]. *)
Theorem last_pop_with_empty_refresh target env rt hosts tm host :
  routing_table rt !! str target = Some (hosts, tm) →
  routable_hosts rt !! str target = Some [host] →
  _is_tm_expired conf (time_check env) tm = true →
  get_hosts env target = [] →
  (get_routable_host str conf target env rt).1 = Ok host ∧
  ∀ rt' env',
    reachable_from str conf (get_routable_host str conf target env rt).2 rt' →
    (get_routable_host str conf target env' rt').1 = Raise IndexError.
Proof.
  intros Hrec Hq Hexp Hempty.
  pose proof (get_routable_host_eq str conf target env rt _
                (update_expired str conf target env rt hosts tm Hrec Hexp))
    as Hcall.
  unfold pop_and_renew in Hcall. simpl in Hcall.
  rewrite Hq, lookup_insert_eq, Hempty in Hcall. simpl in Hcall.
  rewrite Hcall. split; [done|]. intros rt' env' Hreach. simpl in Hreach.
  assert (unroutable (str target)
            (set_routable_hosts (str target) []
               (set_routing_table (str target) ([], time_fetch env) rt)))
    as Hstuck.
  { split; simpl; rewrite lookup_insert_eq; [by eexists|done]. }
  destruct (unroutable_reachable _ _ rt' Hstuck Hreach) as [[r Hrec'] Hq'].
  by rewrite (pop_of_queue target env' rt' r [] Hrec' Hq').
Qed.

(** *** Targets that share a key *)

(** X5.  The cache is keyed by [str(target)] alone.  When the record under
    that key is present and not expired, two targets with the same [str()]
    get the same answer and leave the same table, from both
    [get_routable_host] and [get_all_hosts], even where the matchmaker would
    answer differently for them. *)
Theorem same_str_same_answer target1 target2 env rt hosts tm :
  str target1 = str target2 →
  routing_table rt !! str target1 = Some (hosts, tm) →
  _is_tm_expired conf (time_check env) tm = false →
  get_routable_host str conf target1 env rt =
    get_routable_host str conf target2 env rt ∧
  get_all_hosts str conf target1 env rt =
    get_all_hosts str conf target2 env rt.
Proof.
  intros Hstr Hrec Hfresh.
  pose proof (update_fresh str conf target1 env rt hosts tm Hrec Hfresh)
    as Hupd1.
  rewrite Hstr in Hrec.
  pose proof (update_fresh str conf target2 env rt hosts tm Hrec Hfresh)
    as Hupd2.
  rewrite (get_routable_host_eq str conf target1 env rt rt Hupd1).
  rewrite (get_routable_host_eq str conf target2 env rt rt Hupd2).
  rewrite (get_all_hosts_eq str conf target1 env rt rt Hupd1).
  rewrite (get_all_hosts_eq str conf target2 env rt rt Hupd2).
  by rewrite Hstr.
Qed.

(** *** Round robin from the first lookup, and a whole turn *)

Lemma pop_and_renew_in_step k rt hosts tm i h :
  routing_table rt !! k = Some (hosts, tm) →
  routable_hosts rt !! k = Some (drop i hosts) →
  hosts !! i = Some h →
  pop_and_renew k rt =
    (Ok h, set_routable_hosts k
             (drop (Nat.modulo (S i) (length hosts)) hosts) rt).
Proof.
  intros Hrec Hq Hi. pose proof (lookup_lt_Some _ _ _ Hi) as Hlt.
  unfold pop_and_renew. rewrite Hq, (drop_S _ _ _ Hi), Hrec.
  case_bool_decide as Hrest.
  - apply (f_equal length) in Hrest. rewrite length_drop in Hrest.
    simpl in Hrest. replace (S i) with (length hosts) by lia.
    by rewrite Nat.Div0.mod_same.
  - rewrite Nat.mod_small; [done|].
    destruct (decide (S i = length hosts)) as [Heq|]; [|lia].
    destruct Hrest. apply drop_ge. lia.
Qed.

(** X6.  From a table without a record for the target: when the matchmaker
    answers the first call with the N >= 1 hosts [hosts] and no later call
    finds the record expired, the calls return [hosts] in a repeating cycle
    from its first host: call [k] gives [hosts[k mod N]]. *)
Theorem round_robin_from_first_lookup target rt env0 envs hosts :
  routing_table rt !! str target = None →
  get_hosts env0 target = hosts →
  hosts ≠ [] →
  Forall (λ env, _is_tm_expired conf (time_check env) (time_fetch env0)
                 = false) envs →
  (consecutive (get_routable_host str conf target) (env0 :: envs) rt).1 =
    Ok (round_robin hosts 0 (S (length envs))).
Proof.
  intros Hnone Hhosts Hne Hfresh.
  destruct hosts as [|h0 rest] eqn:Hshape; [done|]. rewrite <- Hshape in *.
  assert (hosts !! 0%nat = Some h0) as H0 by by rewrite Hshape.
  set (rtm := set_routable_hosts (str target) hosts
                (set_routing_table (str target) (hosts, time_fetch env0) rt)).
  assert (routing_table rtm !! str target = Some (hosts, time_fetch env0))
    as Hrec by (simpl; by rewrite lookup_insert_eq).
  pose proof (get_routable_host_eq str conf target env0 rt _
                (update_missing str conf target env0 rt Hnone)) as Hcall.
  rewrite Hhosts in Hcall. fold rtm in Hcall.
  rewrite (pop_and_renew_in_step _ rtm hosts (time_fetch env0) 0%nat h0)
    in Hcall; [|done|by (simpl; rewrite lookup_insert_eq)|done].
  destruct (round_robin_run str conf target
              (set_routable_hosts (str target)
                 (drop (Nat.modulo 1 (length hosts)) hosts) rtm)
              hosts (time_fetch env0) envs (Nat.modulo 1 (length hosts)))
    as (rt' & Hrun & _).
  - done.
  - simpl. by rewrite lookup_insert_eq.
  - apply Nat.mod_upper_bound. rewrite Hshape. done.
  - done.
  - rewrite (consecutive_cons _ _ _ _ _ _ _ _ Hcall Hrun).
    by rewrite (round_robin_S hosts 0%nat (length envs) h0 H0).
Qed.

Lemma round_robin_turn hosts i :
  (i < length hosts)%nat →
  round_robin hosts i (length hosts) = drop i hosts ++ take i hosts.
Proof.
  intros Hlt.
  destruct (round_robin_lookup hosts (length hosts) i Hlt) as [Hlen Hnth].
  apply list_eq. intros k.
  destruct (decide (k < length hosts)%nat) as [Hk|Hk].
  - rewrite (Hnth k Hk).
    destruct (decide (i + k < length hosts)%nat) as [Hsmall|Hwrap].
    + rewrite Nat.mod_small by done.
      rewrite lookup_app_l by (rewrite length_drop; lia).
      by rewrite lookup_drop.
    + rewrite lookup_app_r by (rewrite length_drop; lia).
      rewrite length_drop, lookup_take_lt by lia.
      f_equal. symmetry. apply Nat.mod_unique with (q := 1%nat); lia.
  - rewrite !lookup_ge_None_2; [done| |lia].
    rewrite length_app, length_drop, length_take. lia.
Qed.

(** X7.  One whole turn.  When the queue is the rest [drop i hosts] of the
    record's N hosts and no call finds the record expired, N calls return
    the rest followed by the first [i] hosts, so every position of the
    record's list is served exactly once; after them the queue is [drop i
    hosts] again. *)
Theorem whole_turn target rt hosts tm i envs :
  routing_table rt !! str target = Some (hosts, tm) →
  routable_hosts rt !! str target = Some (drop i hosts) →
  (i < length hosts)%nat →
  length envs = length hosts →
  Forall (λ env, _is_tm_expired conf (time_check env) tm = false) envs →
  ∃ rt',
    consecutive (get_routable_host str conf target) envs rt =
      (Ok (drop i hosts ++ take i hosts), rt') ∧
    drop i hosts ++ take i hosts ≡ₚ hosts ∧
    routing_table rt' = routing_table rt ∧
    routable_hosts rt' !! str target = Some (drop i hosts).
Proof.
  intros Hrec Hq Hlt Hlen Hfresh.
  destruct (round_robin_run str conf target rt hosts tm envs i
              Hrec Hq Hlt Hfresh) as (rt' & Hrun & Hrec' & Hq').
  exists rt'. split_and!.
  - by rewrite Hrun, Hlen, round_robin_turn.
  - by rewrite Permutation_app_comm, take_drop.
  - done.
  - rewrite Hq', Hlen. do 2 f_equal.
    replace (i + length hosts)%nat with (i + 1 * length hosts)%nat by lia.
    rewrite Nat.Div0.mod_add. by apply Nat.mod_small.
Qed.

(** *** The snapshot read and the next pop *)

(** X8.  In a table whose dictionaries have the same keys, the list that
    [get_all_hosts] returns is the queue a following [get_routable_host]
    pops from: that call returns the head of the list, whatever the clock
    and the matchmaker say then, and raises [IndexError] when the list is
    empty. *)
Theorem snapshot_head_is_next target env env' rt out rt1 :
  consistent rt →
  get_all_hosts str conf target env rt = (Ok out, rt1) →
  (get_routable_host str conf target env' rt1).1 = pop_outcome out.
Proof.
  intros Hdom Hall.
  destruct (update_returns str conf target env rt) as [rt1' Hupd].
  rewrite (get_all_hosts_eq str conf target env rt rt1' Hupd) in Hall.
  injection Hall as <- <-.
  destruct (update_leaves_record target env rt rt1' Hupd) as [r Hrec].
  pose proof (update_consistent target env rt rt1' Hdom Hupd) as Hdom1.
  assert (is_Some (routable_hosts rt1' !! str target)) as [queue Hq].
  { apply elem_of_dom. unfold consistent in Hdom1. rewrite <- Hdom1.
    apply elem_of_dom. by eexists. }
  rewrite Hq. simpl. by apply (pop_of_queue target env' rt1' r).
Qed.

End RoutingTableMore.

Section SenderMore.

Context {Target PyObj : Type} (str : Target → string) (conf : Conf).
Context (dumps : PyObj → string) (CALL_TYPE : Z) (DIRECT_TYPES : list Z).
Context (target_to_subscribe_filter : Target → string).
Implicit Types (request : Request Target PyObj) (env : Env Target).
Implicit Types (s : Sender) (queue : list string).

(** X9.  With [use_pub_sub] off, a request that is not a call, for a target
    without a record for which the matchmaker knows no host, is not sent at
    all, and [send_request] returns normally: nothing tells the caller.  The
    empty record and the empty queue are cached. *)
Theorem nothing_sent_without_hosts request env s :
  use_pub_sub conf = false →
  msg_type request ≠ CALL_TYPE →
  routing_table (sender_routing_table s) !! str (target request) = None →
  get_hosts env (target request) = [] →
  send_request str conf dumps CALL_TYPE DIRECT_TYPES
    target_to_subscribe_filter request env s =
    (Ok tt,
     {| sender_routing_table :=
          set_routable_hosts (str (target request)) []
            (set_routing_table (str (target request)) ([], time_fetch env)
               (sender_routing_table s));
        socket := socket s |}).
Proof.
  intros Hmode Hcast Hnone Hempty. unfold send_request.
  rewrite bool_decide_eq_false_2, Hmode by done.
  unfold on_routing_table, mbind, M_bind, bind.
  rewrite (get_all_hosts_eq str conf (target request) env _ _
             (update_missing str conf (target request) env _ Hnone)).
  rewrite Hempty. simpl. rewrite lookup_insert_eq. by run.
Qed.

Lemma fan_out_step request env s r queue :
  use_pub_sub conf = false →
  msg_type request ≠ CALL_TYPE →
  routing_table (sender_routing_table s) !! str (target request) = Some r →
  routable_hosts (sender_routing_table s) !! str (target request) =
    Some queue →
  ∃ rt1 r1,
    send_request str conf dumps CALL_TYPE DIRECT_TYPES
      target_to_subscribe_filter request env s =
      (Ok tt, {| sender_routing_table := rt1;
                 socket := socket s ++
                   concat (envelope dumps request <$> queue) |}) ∧
    routable_hosts rt1 = routable_hosts (sender_routing_table s) ∧
    routing_table rt1 !! str (target request) = Some r1.
Proof.
  intros Hmode Hcast Hrec Hq. destruct r as [hosts tm].
  destruct (update_present str conf (target request) env _ hosts tm Hrec)
    as (rt1 & hosts1 & tm1 & Hupd & Hq1 & Hrec1).
  exists rt1, (hosts1, tm1). split; [|done].
  unfold send_request. rewrite bool_decide_eq_false_2, Hmode by done.
  unfold on_routing_table, mbind, M_bind, bind.
  rewrite (get_all_hosts_eq str conf (target request) env _ rt1 Hupd).
  rewrite Hq1, Hq. simpl. by rewrite for_each_do_send_request.
Qed.

(** X10.  With [use_pub_sub] off, once the target has a record, every
    [send_request] of a request that is not a call goes to the hosts of the
    queue as it stands, and leaves the queue as it is: any number of sends
    address the same hosts each time, whatever the matchmaker answers in the
    meantime. *)
Theorem fan_out_set_is_fixed request envs : ∀ s r queue,
  use_pub_sub conf = false →
  msg_type request ≠ CALL_TYPE →
  routing_table (sender_routing_table s) !! str (target request) = Some r →
  routable_hosts (sender_routing_table s) !! str (target request) =
    Some queue →
  ∃ rt',
    consecutive
      (send_request str conf dumps CALL_TYPE DIRECT_TYPES
         target_to_subscribe_filter request) envs s =
      (Ok (replicate (length envs) tt),
       {| sender_routing_table := rt';
          socket := socket s ++
            concat (replicate (length envs)
                      (concat (envelope dumps request <$> queue))) |}) ∧
    routable_hosts rt' = routable_hosts (sender_routing_table s).
Proof.
  induction envs as [|env envs IH]; intros s r queue Hmode Hcast Hrec Hq.
  - exists (sender_routing_table s). split; [|done].
    simpl. rewrite app_nil_r. by destruct s.
  - destruct (fan_out_step request env s r queue Hmode Hcast Hrec Hq)
      as (rt1 & r1 & Hsend & Hq1 & Hrec1).
    destruct (IH {| sender_routing_table := rt1;
                    socket := socket s ++
                      concat (envelope dumps request <$> queue) |}
                r1 queue Hmode Hcast Hrec1)
      as (rt' & Hrun & Hq'); [simpl; by rewrite Hq1|].
    exists rt'. split; [|by rewrite Hq'].
    rewrite (consecutive_cons _ _ _ _ _ _ _ _ Hsend Hrun).
    simpl. by rewrite <- app_assoc.
Qed.

(** X11.  With [use_pub_sub] on, a request that is not a call and whose
    type is in [DIRECT_TYPES] is sent as one envelope whose routing key is
    the host [get_routable_host] returns, and the routing table is left as
    that call leaves it; when that call raises, nothing is sent and the
    exception is the caller's. *)
Theorem pub_sub_dispatch request env s :
  use_pub_sub conf = true →
  msg_type request ≠ CALL_TYPE →
  msg_type request ∈ DIRECT_TYPES →
  (∀ host rt',
     get_routable_host str conf (target request) env
       (sender_routing_table s) = (Ok host, rt') →
     send_request str conf dumps CALL_TYPE DIRECT_TYPES
       target_to_subscribe_filter request env s =
       (Ok tt, {| sender_routing_table := rt';
                  socket := socket s ++ envelope dumps request host |})) ∧
  (∀ e rt',
     get_routable_host str conf (target request) env
       (sender_routing_table s) = (Raise e, rt') →
     send_request str conf dumps CALL_TYPE DIRECT_TYPES
       target_to_subscribe_filter request env s =
       (Raise e, {| sender_routing_table := rt'; socket := socket s |})).
Proof.
  intros Hmode Hcast Hdirect. unfold send_request.
  rewrite bool_decide_eq_false_2, Hmode by done.
  rewrite bool_decide_eq_true_2 by done.
  unfold on_routing_table, mbind, M_bind, bind. split.
  - intros host rt' Hhost. rewrite Hhost. by rewrite do_send_request_eq.
  - intros e rt' Hraise. by rewrite Hraise.
Qed.

End SenderMore.

Section ReplyMore.

Context {PyObj : Type} (int : string → option Z).
Context (loads : string → option PyObj) (REPLY_TYPE : Z).

(** X12.  [receive_method] returns a reply exactly for a sequence that
    starts with five frames of this form: an empty frame, any frame, a frame
    that [int()] reads as [REPLY_TYPE], any frame, and a frame that
    unpickles; the reply is the unpickled fifth frame, these five frames are
    consumed and the rest is left.  The second and the fourth frame, the
    reply id and the message id, are not looked at. *)
Theorem reply_is_returned_iff frames reply rest :
  receive_method int loads REPLY_TYPE frames = (Ok reply, rest) ↔
  ∃ reply_id type_frame message_id payload,
    frames = "" :: reply_id :: type_frame :: message_id :: payload :: rest ∧
    int type_frame = Some REPLY_TYPE ∧
    loads payload = Some reply.
Proof.
  split.
  - unfold receive_method, recv_pyobj, recv, assert. run.
    destruct frames as [|f1 frames]; [done|]. case_bool_decide; [|done].
    destruct frames as [|f2 frames]; [done|]. simpl.
    destruct frames as [|f3 frames]; [done|].
    destruct (int f3) as [n|] eqn:Hint; [|done]. simpl.
    case_bool_decide; [|done].
    destruct frames as [|f4 frames]; [done|].
    destruct frames as [|f5 frames]; [done|].
    destruct (loads f5) as [obj|] eqn:Hloads; [|done]. simpl.
    intros [= <- <-]. exists f2, f3, f4, f5. by subst.
  - intros (reply_id & type_frame & message_id & payload & -> & Hint & Hloads).
    unfold receive_method, recv_pyobj, recv, assert. run.
    rewrite Hint. run. rewrite bool_decide_eq_true_2 by done.
    by rewrite Hloads.
Qed.

End ReplyMore.

Section UpdaterFacts.

(** X13.  [_update_connection] passes to [connect_to_host] the router
    address of every pair the matchmaker lists, once each and in the order
    of the list, and never a publisher address; it keeps no memory, so a
    second run connects to all of them again. *)
Theorem update_connection_connects publishers : ∀ s,
  _update_connection publishers s = (Ok tt, s ++ publishers.*2) ∧
  (_update_connection publishers ;; _update_connection publishers) s =
    (Ok tt, s ++ publishers.*2 ++ publishers.*2).
Proof.
  assert (∀ s, _update_connection publishers s = (Ok tt, s ++ publishers.*2))
    as Hone.
  { unfold _update_connection.
    induction publishers as [|[pub_address router_address] rest IH];
      intros s.
    - simpl. by rewrite app_nil_r.
    - cbn [for_each]. unfold mbind, M_bind, bind, connect_to_host at 1.
      rewrite IH. simpl. by rewrite <- app_assoc. }
  intros s. split; [done|].
  unfold mbind, M_bind, bind. rewrite Hone, Hone. by rewrite <- app_assoc.
Qed.

End UpdaterFacts.

(** X4, an instance: a call for ["U"] leaves the entries of ["T"]. *)
Lemma other_keys_untouched_example :
  routable_hosts
    (get_routable_host id (conf_of 120 true) "U" (world ["Z"] 200)
       table_bc).2 !! "T" = Some ["B"; "C"].
Proof.
  destruct (other_keys_untouched id (conf_of 120 true) "U" (world ["Z"] 200)
              table_bc "T") as [[_ Hq] _].
  - discriminate.
  - rewrite Hq. reflexivity.
Defined.

(** X1, an instance: a table reached by two calls from the empty one. *)
Lemma reachable_tables_consistent_example :
  let conf := conf_of 120 true in
  let rt := (get_routable_host id conf "T" (world [] 0)
               (get_all_hosts id conf "U" (world ["Z"] 0)
                  RoutingTable_init).2).2 in
  consistent rt ∧
  ((get_routable_host id conf "T" (world ["A"] 1) rt).1 = Raise IndexError ∨
   ∃ host, (get_routable_host id conf "T" (world ["A"] 1) rt).1 = Ok host).
Proof.
  intros conf rt.
  destruct (reachable_tables_consistent id conf RoutingTable_init rt)
    as [Hdom Hcall].
  - unfold consistent. simpl. by rewrite !dom_empty_L.
  - apply reachable_get_routable_host, reachable_get_all_hosts,
      reachable_start.
  - split; [exact Hdom | apply Hcall].
Defined.

(** X2, an instance: the record of [table_bc] is expired at time 500 and
    the matchmaker answers [Z], yet the call returns B, the head of the
    queue. *)
Lemma returned_host_example :
  (get_routable_host id (conf_of 120 true) "T" (world ["Z"] 500)
     table_bc).1 = Ok "B".
Proof.
  destruct (returned_host id (conf_of 120 true) "T" (world ["Z"] 500)
              table_bc) as [_ Hqueue].
  apply (Hqueue (["A"; "B"; "C"], 0) ["B"; "C"]); reflexivity.
Defined.

(** X3, an instance: after a snapshot read that refreshes the record to
    [A, B], the call still raises. *)
Lemma empty_queue_is_final_example :
  let conf := conf_of 120 true in
  let rt' := (get_all_hosts id conf "T" (world ["A"; "B"] 500)
                table_empty_queue).2 in
  routing_table rt' !! "T" = Some (["A"; "B"], 500) ∧
  (get_routable_host id conf "T" (world ["A"; "B"] 501) rt').1 =
    Raise IndexError.
Proof.
  intros conf rt'. split; [reflexivity|].
  apply (empty_queue_is_final id conf "T" table_empty_queue rt').
  - split; [by eexists | reflexivity].
  - apply reachable_get_all_hosts, reachable_start.
Defined.

(** X14, an instance: time-to-live 10; at time 10 the matchmaker knows no
    host; the call returns B, and the call at time 30, when the matchmaker
    knows A again, raises. *)
Lemma last_pop_with_empty_refresh_example :
  let conf := conf_of 10 true in
  (get_routable_host id conf "T" (world [] 10) table_last).1 = Ok "B" ∧
  (get_routable_host id conf "T" (world ["A"] 30)
     (get_routable_host id conf "T" (world [] 10) table_last).2).1 =
    Raise IndexError.
Proof.
  intros conf.
  destruct (last_pop_with_empty_refresh id conf "T" (world [] 10) table_last
              ["A"; "B"] 0 "B") as [Hret Hlater]; try reflexivity.
  split; [exact Hret|]. apply Hlater, reachable_start.
Defined.

(** X5, an instance: the record under ["T"] was fetched for server ["s1"];
    a call for server ["s2"], for which the matchmaker would answer [Y], gets
    X. *)
Lemma same_str_same_answer_example :
  let conf := conf_of 120 true in
  let rt := (get_all_hosts topic_of conf ("T", "s1") (by_server 0)
               RoutingTable_init).2 in
  (get_routable_host topic_of conf ("T", "s2") (by_server 1) rt).1 = Ok "X".
Proof.
  intros conf rt.
  destruct (same_str_same_answer topic_of conf ("T", "s1") ("T", "s2")
              (by_server 1) rt ["X"] 0) as [Hsame _].
  - reflexivity.
  - reflexivity.
  - reflexivity.
  - rewrite <- Hsame. reflexivity.
Defined.

(** X6, an instance: the scenario of the specification from the empty
    table. *)
Lemma round_robin_from_first_lookup_abc :
  (consecutive (get_routable_host id (conf_of 120 true) "T")
     [world ["A"; "B"; "C"] 0; world [] 1; world [] 2; world [] 3]
     RoutingTable_init).1 = Ok ["A"; "B"; "C"; "A"].
Proof.
  apply (round_robin_from_first_lookup id (conf_of 120 true) "T"
           RoutingTable_init (world ["A"; "B"; "C"] 0)
           [world [] 1; world [] 2; world [] 3] ["A"; "B"; "C"]).
  - reflexivity.
  - reflexivity.
  - discriminate.
  - repeat constructor.
Defined.

(** X7, an instance: from the queue [B, C] of [table_bc], three calls give
    B, C, A and leave the queue [B, C]. *)
Lemma whole_turn_example :
  ∃ rt',
    consecutive (get_routable_host id (conf_of 120 true) "T")
      [world [] 1; world [] 2; world [] 3] table_bc =
      (Ok ["B"; "C"; "A"], rt') ∧
    routable_hosts rt' !! "T" = Some ["B"; "C"].
Proof.
  destruct (whole_turn id (conf_of 120 true) "T" table_bc ["A"; "B"; "C"] 0
              1%nat [world [] 1; world [] 2; world [] 3])
    as (rt' & Hrun & _ & _ & Hq).
  - reflexivity.
  - reflexivity.
  - simpl. lia.
  - reflexivity.
  - repeat constructor.
  - exists rt'. split; [exact Hrun | exact Hq].
Defined.

(** X8, an instance: the snapshot read of [table_bc] gives [B, C], and the
    next call returns B. *)
Lemma snapshot_head_is_next_example :
  (get_routable_host id (conf_of 120 true) "T" (world ["Z"] 500)
     (get_all_hosts id (conf_of 120 true) "T" (world [] 1) table_bc).2).1 =
  Ok "B".
Proof.
  apply (snapshot_head_is_next id (conf_of 120 true) "T" (world [] 1)
           (world ["Z"] 500) table_bc ["B"; "C"]).
  - unfold consistent. simpl. by rewrite !dom_singleton_L.
  - reflexivity.
Defined.

(** X9, an instance: a cast on a fresh sender while the matchmaker knows
    no host. *)
Lemma nothing_sent_without_hosts_example :
  let '(out, s') :=
    send_request id (conf_of 120 false) id CALL DIRECT id cast_request
      (world [] 0) fresh_sender in
  out = Ok tt ∧ socket s' = [].
Proof.
  rewrite (nothing_sent_without_hosts id (conf_of 120 false) id CALL DIRECT
             id cast_request (world [] 0) fresh_sender);
    [|reflexivity|discriminate|reflexivity|reflexivity].
  split; reflexivity.
Defined.

(** X10, an instance: two casts from [sender_abc]; the record is expired
    at both and the matchmaker answers [Z], then nothing, yet both go to A, B
    and C. *)
Lemma fan_out_set_is_fixed_example :
  (socket (consecutive
             (send_request id (conf_of 120 false) id CALL DIRECT id
                cast_request)
             [world ["Z"] 500; world [] 1000] sender_abc).2).*1 =
  [ ""; "2"; "A"; "m1"; "ctx"; "msg"; ""; "2"; "B"; "m1"; "ctx"; "msg";
    ""; "2"; "C"; "m1"; "ctx"; "msg";
    ""; "2"; "A"; "m1"; "ctx"; "msg"; ""; "2"; "B"; "m1"; "ctx"; "msg";
    ""; "2"; "C"; "m1"; "ctx"; "msg" ].
Proof.
  destruct (fan_out_set_is_fixed id (conf_of 120 false) id CALL DIRECT id
              cast_request [world ["Z"] 500; world [] 1000] sender_abc
              (["A"; "B"; "C"], 0) ["A"; "B"; "C"])
    as (rt' & Hrun & _).
  - reflexivity.
  - discriminate.
  - reflexivity.
  - reflexivity.
  - rewrite Hrun. reflexivity.
Defined.

(** X11, instances: with [use_pub_sub] on, a cast from [sender_abc] goes
    to A, the next host of the queue; from a sender whose queue is empty it
    raises and sends nothing. *)
Lemma pub_sub_dispatch_example :
  (socket (send_request id (conf_of 120 true) id CALL DIRECT id cast_request
             (world [] 1) sender_abc).2).*1 =
    [ ""; "2"; "A"; "m1"; "ctx"; "msg" ] ∧
  send_request id (conf_of 120 true) id CALL DIRECT id cast_request
    (world [] 1) sender_empty_queue =
    (Raise IndexError, sender_empty_queue).
Proof.
  split.
  - destruct (pub_sub_dispatch id (conf_of 120 true) id CALL DIRECT id
                cast_request (world [] 1) sender_abc) as [Hsend _];
      [reflexivity | discriminate | |].
    + apply (bool_decide_unpack _). reflexivity.
    + erewrite Hsend; reflexivity.
  - destruct (pub_sub_dispatch id (conf_of 120 true) id CALL DIRECT id
                cast_request (world [] 1) sender_empty_queue) as [_ Hraise];
      [reflexivity | discriminate | |].
    + apply (bool_decide_unpack _). reflexivity.
    + apply (Hraise IndexError table_empty_queue). reflexivity.
Defined.

(** X12, an instance: a well-formed reply followed by a frame of the next
    message. *)
Lemma reply_is_returned_example :
  receive_method decimal_int Some REPLY
    [""; "id"; "5"; "m1"; "payload"; "next"] = (Ok "payload", ["next"]).
Proof.
  apply (reply_is_returned_iff (PyObj := string) decimal_int Some REPLY).
  exists "id", "5", "m1", "payload". split_and!; reflexivity.
Defined.
